(** * Envoy stats symbol table: a shallow embedding and its properties

    Embedding of [source/common/stats/symbol_table_impl.{h,cc}]:
    the variable-length token codec ([SymbolEncoding]), the length-prefixed
    packed name ([StatName]), the reference-counted interner ([SymbolTable])
    and the byte-level joiner ([StatNameJoiner]).

    Conventions of the embedding.
    - [uint8_t], [uint32_t] and [uint64_t] values are numbers in [N]; every
      place where the C++ narrows or wraps is written out with [u8]/[u32].
    - A [std::vector] is a list whose [push_back] appends at the end; the
      [std::stack] free pool is a list whose head is the top.
    - The two [absl::flat_hash_map]s are [gmap]s.
    - [ASSERT] and [RELEASE_ASSERT] abort the process (for [ASSERT] this is
      the debug build); an operation that can abort returns an [option] and
      [None] stands for the failed assertion.
    - The table lock is not modelled: every operation runs atomically. *)

From stdpp Require Import gmap strings list fin_maps.
From Stdlib Require Import NArith Lia Ascii.

Local Open Scope N_scope.

(** ** Machine integers *)

Definition u8 (n : N) : N := n mod 2 ^ 8.
Definition u32 (n : N) : N := n mod 2 ^ 32.

(** [using Symbol = uint32_t] *)
Abbreviation Symbol := N (only parsing).
(** [using SymbolVec = std::vector<Symbol>] *)
Abbreviation SymbolVec := (list N) (only parsing).

Definition SpilloverMask : N := 0x80.
Definition Low7Bits : N := 0x7f.

Definition StatNameSizeEncodingBytes : N := 2.
Definition StatNameMaxSize : N := N.shiftl 1 (8 * StatNameSizeEncodingBytes).

(** ** absl string helpers used by the table

    [absl::StrSplit(name, '.')] keeps empty pieces and yields one piece for
    the empty input; [absl::StrJoin(pieces, ".")] yields the empty string for
    no piece.  [std::string_view::operator<] is [String.ltb] (lexicographic
    on unsigned character codes, a proper prefix being smaller). *)

Fixpoint StrSplit (name : string) (delim : ascii) : list string :=
  match name with
  | EmptyString => [EmptyString]
  | String c rest =>
      if Ascii.eqb c delim then EmptyString :: StrSplit rest delim
      else match StrSplit rest delim with
           | tok :: toks => String c tok :: toks
           | [] => [String c EmptyString]
           end
  end.

Fixpoint StrJoin (pieces : list string) (sep : string) : string :=
  match pieces with
  | [] => EmptyString
  | [p] => p
  | p :: rest => p +:+ sep +:+ StrJoin rest sep
  end.

(** ** SymbolEncoding: the token codec *)

Module SymbolEncoding.

(** The private [std::vector<uint8_t> vec_]. *)
Abbreviation t := (list N) (only parsing).

(** The body of the [do { ... } while (symbol != 0)] loop of [addSymbol].
    [fuel] bounds the number of further iterations; [addSymbol] passes the
    bit size of the symbol, which the loop never uses up
    (see [addSymbol_unfold]). *)
Fixpoint addSymbol_loop (fuel : nat) (symbol : N) (vec_ : list N) : list N :=
  let vec_ :=
    if symbol <? N.shiftl 1 7 then vec_ ++ [u8 symbol]
    else vec_ ++ [u8 (N.lor (N.land symbol Low7Bits) SpilloverMask)] in
  let symbol := N.shiftr symbol 7 in
  match fuel with
  | O => vec_
  | S fuel' => if symbol =? 0 then vec_ else addSymbol_loop fuel' symbol vec_
  end.

Definition addSymbol (vec_ : t) (symbol : Symbol) : t :=
  addSymbol_loop (N.to_nat (N.size symbol)) symbol vec_.

(** The [for] loop of [decodeSymbols] over the bytes still to read, with
    the loop variables [symbol], [shift] and the result vector.  The
    left shift of a [uint32_t] keeps the low 32 bits.  A shift count of 32
    or more, reached only after more than five continuation bytes in a row,
    is undefined in C++; the count is then taken modulo 32, as the 32-bit
    shift instructions of x86-64 and AArch64 take it. *)
Fixpoint decodeSymbols_loop (array : list N) (symbol shift : N)
    (symbol_vec : list N) : list N :=
  match array with
  | [] => symbol_vec
  | uc :: array' =>
      let symbol :=
        N.lor symbol (u32 (N.shiftl (N.land uc Low7Bits) (shift mod 32))) in
      if N.land uc SpilloverMask =? 0
      then decodeSymbols_loop array' 0 0 (symbol_vec ++ [symbol])
      else decodeSymbols_loop array' symbol (u32 (shift + 7)) symbol_vec
  end.

(** [decodeSymbols(array, size)] reads the first [size] bytes of the array;
    callers pass a [size] no larger than the array. *)
Definition decodeSymbols (array : list N) (size : N) : SymbolVec :=
  decodeSymbols_loop (take (N.to_nat size) array) 0 0 [].

Definition size (vec_ : t) : N := N.of_nat (length vec_).

Definition bytesRequired (vec_ : t) : N := size vec_ + StatNameSizeEncodingBytes.

(** [saveLengthToBytesReturningNext]: the two bytes written, or [None]
    when [ASSERT(length < StatNameMaxSize)] fails. *)
Definition saveLengthToBytesReturningNext (length : N) : option (list N) :=
  if length <? StatNameMaxSize
  then Some [u8 (N.land length 0xff); u8 (N.shiftr length 8)]
  else None.

(** [moveToStorage]: the bytes written to the destination array, the
    cleared encoding and the returned byte count. *)
Definition moveToStorage (vec_ : t) : option (list N * t * N) :=
  let sz := size vec_ in
  header ← saveLengthToBytesReturningNext sz;
  let symbol_array := if sz =? 0 then header else header ++ vec_ in
  Some (symbol_array, [], sz + StatNameSizeEncodingBytes).

End SymbolEncoding.

(** ** StatName: a view of a length-prefixed byte array

    [size_and_data_] points at the two length bytes; the view is the list of
    bytes from that address on. *)

Module StatName.

Abbreviation t := (list N) (only parsing).

Definition dataSize (size_and_data_ : t) : N :=
  N.lor (size_and_data_ !!! 0%nat) (N.shiftl (size_and_data_ !!! 1%nat) 8).

Definition size (size_and_data_ : t) : N :=
  dataSize size_and_data_ + StatNameSizeEncodingBytes.

Definition data (size_and_data_ : t) : list N :=
  drop (N.to_nat StatNameSizeEncodingBytes) size_and_data_.

(** [operator==]: equal payload sizes and [memcmp] over that many bytes. *)
Definition eqb (lhs rhs : t) : bool :=
  let sz := dataSize lhs in
  (sz =? dataSize rhs)
  && bool_decide (take (N.to_nat sz) (data lhs) = take (N.to_nat sz) (data rhs)).

End StatName.

(** ** SymbolTable: the reference-counted interner *)

Module SymbolTable.

(** [struct SharedSymbol]; its constructor sets [ref_count_] to 1. *)
Record SharedSymbol := mkSharedSymbol { symbol_ : N; ref_count_ : N }.

Definition newSharedSymbol (symbol : Symbol) : SharedSymbol :=
  mkSharedSymbol symbol 1.

Record t := mk {
  next_symbol_ : N;
  monotonic_counter_ : N;
  encode_map_ : gmap string SharedSymbol;
  decode_map_ : gmap N string;
  pool_ : list N
}.

(** [SymbolTable::SymbolTable() : next_symbol_(0), monotonic_counter_(0)] *)
Definition init : t := mk 0 0 ∅ ∅ [].

Definition monotonicCounter (tb : t) : N := monotonic_counter_ tb.

(** [newSymbol]: stage the id of the next insertion, from the pool when it
    has one, else from the counter; then [ASSERT(monotonic_counter_ != 0)]. *)
Definition newSymbol (tb : t) : option t :=
  let tb' :=
    match pool_ tb with
    | [] =>
        let c := u32 (monotonic_counter_ tb + 1) in
        mk c c (encode_map_ tb) (decode_map_ tb) []
    | top :: rest =>
        mk top (monotonic_counter_ tb) (encode_map_ tb) (decode_map_ tb) rest
    end in
  if monotonic_counter_ tb' =? 0 then None else Some tb'.

(** [toSymbol]: intern one token.  [flat_hash_map::insert] does not
    overwrite; the insertion into [encode_map_] follows a failed [find]
    and so takes place, the one into [decode_map_] is guarded by
    [ASSERT(decode_insert.second)]. *)
Definition toSymbol (tb : t) (sv : string) : option (t * Symbol) :=
  match encode_map_ tb !! sv with
  | None =>
      let em := <[sv := newSharedSymbol (next_symbol_ tb)]> (encode_map_ tb) in
      match decode_map_ tb !! next_symbol_ tb with
      | Some _ => None
      | None =>
          let dm := <[next_symbol_ tb := sv]> (decode_map_ tb) in
          let result := next_symbol_ tb in
          tb' ← newSymbol
                  (mk (next_symbol_ tb) (monotonic_counter_ tb) em dm (pool_ tb));
          Some (tb', result)
      end
  | Some shared =>
      let result := symbol_ shared in
      let shared' := mkSharedSymbol (symbol_ shared) (u32 (ref_count_ shared + 1)) in
      Some (mk (next_symbol_ tb) (monotonic_counter_ tb)
               (<[sv := shared']> (encode_map_ tb)) (decode_map_ tb) (pool_ tb),
            result)
  end.

(** [fromSymbol]: [RELEASE_ASSERT(search != decode_map_.end())]. *)
Definition fromSymbol (tb : t) (symbol : Symbol) : option string :=
  decode_map_ tb !! symbol.

(** The locked loop of [encode]: [symbols.push_back(toSymbol(token))]. *)
Fixpoint toSymbols (tb : t) (tokens : list string) : option (t * SymbolVec) :=
  match tokens with
  | [] => Some (tb, [])
  | token :: tokens' =>
      '(tb1, symbol) ← toSymbol tb token;
      '(tb2, symbols) ← toSymbols tb1 tokens';
      Some (tb2, symbol :: symbols)
  end.

Definition encode (tb : t) (name : string) : option (t * SymbolEncoding.t) :=
  match name with
  | EmptyString => Some (tb, [])
  | _ =>
      let tokens := StrSplit name "." in
      '(tb', symbols) ← toSymbols tb tokens;
      Some (tb', foldl SymbolEncoding.addSymbol [] symbols)
  end.

Definition decodeSymbolVec (tb : t) (symbols : SymbolVec) : option string :=
  name_tokens ← mapM (fromSymbol tb) symbols;
  Some (StrJoin name_tokens ".").

Definition decode (tb : t) (symbol_array : list N) (size : N) : option string :=
  decodeSymbolVec tb (SymbolEncoding.decodeSymbols symbol_array size).

(** A [for (Symbol symbol : symbols)] loop whose body updates the table
    and may abort. *)
Fixpoint for_each (body : t → Symbol → option t) (tb : t) (symbols : SymbolVec)
    : option t :=
  match symbols with
  | [] => Some tb
  | symbol :: symbols' => tb1 ← body tb symbol; for_each body tb1 symbols'
  end.

(** Loop body of [incRefCount]. *)
Definition incRefCount_symbol (tb : t) (symbol : Symbol) : option t :=
  str ← decode_map_ tb !! symbol;
  shared ← encode_map_ tb !! str;
  let shared' := mkSharedSymbol (symbol_ shared) (u32 (ref_count_ shared + 1)) in
  Some (mk (next_symbol_ tb) (monotonic_counter_ tb)
           (<[str := shared']> (encode_map_ tb)) (decode_map_ tb) (pool_ tb)).

Definition incRefCount (tb : t) (stat_name : StatName.t) : option t :=
  let symbols :=
    SymbolEncoding.decodeSymbols (StatName.data stat_name)
                                 (StatName.dataSize stat_name) in
  for_each incRefCount_symbol tb symbols.

(** Loop body of [free]; [--ref_count_] wraps like any [uint32_t]. *)
Definition free_symbol (tb : t) (symbol : Symbol) : option t :=
  str ← decode_map_ tb !! symbol;
  shared ← encode_map_ tb !! str;
  let ref_count := u32 (ref_count_ shared + (2 ^ 32 - 1)) in
  if ref_count =? 0
  then Some (mk (next_symbol_ tb) (monotonic_counter_ tb)
                (delete str (encode_map_ tb)) (delete symbol (decode_map_ tb))
                (symbol :: pool_ tb))
  else Some (mk (next_symbol_ tb) (monotonic_counter_ tb)
                (<[str := mkSharedSymbol (symbol_ shared) ref_count]> (encode_map_ tb))
                (decode_map_ tb) (pool_ tb)).

Definition free (tb : t) (stat_name : StatName.t) : option t :=
  let symbols :=
    SymbolEncoding.decodeSymbols (StatName.data stat_name)
                                 (StatName.dataSize stat_name) in
  for_each free_symbol tb symbols.

(** [numSymbols]: [ASSERT(encode_map_.size() == decode_map_.size())]. *)
Definition numSymbols (tb : t) : option N :=
  if decide (size (encode_map_ tb) = size (decode_map_ tb))
  then Some (N.of_nat (size (encode_map_ tb)))
  else None.

(** The [for (i = 0; i < n; ++i)] loop of [lessThan]; [todo] is [n - i]. *)
Fixpoint lessThan_loop (tb : t) (av bv : SymbolVec) (i todo : nat) : option bool :=
  match todo with
  | O => Some (N.of_nat (length av) <? N.of_nat (length bv))
  | S todo' =>
      if decide (av !!! i = bv !!! i)
      then lessThan_loop tb av bv (S i) todo'
      else
        sa ← fromSymbol tb (av !!! i);
        sb ← fromSymbol tb (bv !!! i);
        Some (String.ltb sa sb)
  end.

Definition lessThan (tb : t) (a b : StatName.t) : option bool :=
  let av := SymbolEncoding.decodeSymbols (StatName.data a) (StatName.dataSize a) in
  let bv := SymbolEncoding.decodeSymbols (StatName.data b) (StatName.dataSize b) in
  lessThan_loop tb av bv 0 (min (length av) (length bv)).

End SymbolTable.

(** [StatName::toString] *)
Definition StatName_toString (size_and_data_ : StatName.t) (table : SymbolTable.t)
    : option string :=
  SymbolTable.decode table (StatName.data size_and_data_)
                     (StatName.dataSize size_and_data_).

(** ** StatNameStorage: owning storage, a [bytes_] array *)

Module StatNameStorage.

(** [StatNameStorage(absl::string_view name, SymbolTable& table)] *)
Definition of_name (name : string) (table : SymbolTable.t)
    : option (SymbolTable.t * list N) :=
  '(table', encoding) ← SymbolTable.encode table name;
  '(bytes_, _, _) ← SymbolEncoding.moveToStorage encoding;
  Some (table', bytes_).

Definition statName (bytes_ : list N) : StatName.t := bytes_.

(** [StatNameStorage(StatName src, SymbolTable& table)] *)
Definition of_StatName (src : StatName.t) (table : SymbolTable.t)
    : option (SymbolTable.t * list N) :=
  let size := StatName.size src in
  let bytes_ := take (N.to_nat size) src in
  table' ← SymbolTable.incRefCount table (statName bytes_);
  Some (table', bytes_).

(** [free(SymbolTable&)]; [bytes_.reset()] leaves no storage behind. *)
Definition free (bytes_ : list N) (table : SymbolTable.t) : option SymbolTable.t :=
  SymbolTable.free table (statName bytes_).

End StatNameStorage.

(** ** StatNameJoiner *)

Module StatNameJoiner.

(** [alloc]: the length prefix written at the head of the new array. *)
Definition alloc (num_bytes : N) : option (list N) :=
  SymbolEncoding.saveLengthToBytesReturningNext num_bytes.

(** [StatNameJoiner(StatName a, StatName b)]: the new [bytes_]. The
    constructor receives no table. *)
Definition join (a b : StatName.t) : option (list N) :=
  let a_size := StatName.dataSize a in
  let b_size := StatName.dataSize b in
  p ← alloc (a_size + b_size);
  Some (p ++ take (N.to_nat a_size) (StatName.data a)
          ++ take (N.to_nat b_size) (StatName.data b)).

Definition statName (bytes_ : list N) : StatName.t := bytes_.

End StatNameJoiner.

(** ** Reachable table states *)

Inductive table_step : SymbolTable.t → SymbolTable.t → Prop :=
| step_encode tb name tb' e :
    SymbolTable.encode tb name = Some (tb', e) → table_step tb tb'
| step_free tb stat_name tb' :
    SymbolTable.free tb stat_name = Some tb' → table_step tb tb'
| step_incRefCount tb stat_name tb' :
    SymbolTable.incRefCount tb stat_name = Some tb' → table_step tb tb'.

Inductive reachable : SymbolTable.t → Prop :=
| reachable_init : reachable SymbolTable.init
| reachable_step tb tb' : reachable tb → table_step tb tb' → reachable tb'.

(** ** The codec as the specification words it *)

(** "while [s >= 128] emit [(s & 0x7F) | 0x80] then set [s = s >> 7];
    finally emit [s]". *)
Inductive base128 : N → list N → Prop :=
| base128_last s : s < 128 → base128 s [s]
| base128_more s bytes :
    128 ≤ s → base128 (N.shiftr s 7) bytes →
    base128 s (N.lor (N.land s 0x7F) 0x80 :: bytes).

(** ** Table invariants *)

(** The two maps are inverse to each other and have the same size. *)
Record bimap_maps (em : gmap string SymbolTable.SharedSymbol) (dm : gmap N string)
    : Prop := {
  bimap_inverse : ∀ s id,
    (∃ rc, em !! s = Some (SymbolTable.mkSharedSymbol id rc)) ↔ dm !! id = Some s;
  bimap_size : size em = size dm
}.

Definition bimap (tb : SymbolTable.t) : Prop :=
  bimap_maps (SymbolTable.encode_map_ tb) (SymbolTable.decode_map_ tb).

(** The staged id, the pooled ids and the live ids are pairwise distinct and
    none exceeds the counter, which has not wrapped. *)
Record ids_ok (tb : SymbolTable.t) : Prop := {
  ids_next_fresh :
    SymbolTable.decode_map_ tb !! SymbolTable.next_symbol_ tb = None;
  ids_next_not_pooled : SymbolTable.next_symbol_ tb ∉ SymbolTable.pool_ tb;
  ids_pool_nodup : NoDup (SymbolTable.pool_ tb);
  ids_pool_free : ∀ p,
    p ∈ SymbolTable.pool_ tb → SymbolTable.decode_map_ tb !! p = None;
  ids_next_le : SymbolTable.next_symbol_ tb ≤ SymbolTable.monotonic_counter_ tb;
  ids_pool_le : ∀ p,
    p ∈ SymbolTable.pool_ tb → p ≤ SymbolTable.monotonic_counter_ tb;
  ids_live_le : ∀ id s,
    SymbolTable.decode_map_ tb !! id = Some s →
    id ≤ SymbolTable.monotonic_counter_ tb;
  ids_counter : SymbolTable.monotonic_counter_ tb < 2 ^ 32;
  ids_started :
    SymbolTable.monotonic_counter_ tb = 0 →
    SymbolTable.decode_map_ tb = ∅ ∧ SymbolTable.pool_ tb = []
}.

Definition wf (tb : SymbolTable.t) : Prop := bimap tb ∧ ids_ok tb.

(** ** Sample runs used to instantiate the statements *)

(** A fresh table after [encode("cluster.x.rq_total")]. *)
Definition table_after_encode : SymbolTable.t :=
  match SymbolTable.encode SymbolTable.init "cluster.x.rq_total" with
  | Some (tb, _) => tb
  | None => SymbolTable.init
  end.

(** A fresh table after [encode("a")] and [free] of the name it returned. *)
Definition table_after_free : SymbolTable.t :=
  match StatNameStorage.of_name "a" SymbolTable.init with
  | Some (tb, bytes_) =>
      match StatNameStorage.free bytes_ tb with
      | Some tb' => tb'
      | None => SymbolTable.init
      end
  | None => SymbolTable.init
  end.

(** ** Relating a table to the same table with one more reference *)

(** [extra_ref t i A B]: the maps of [A] are those of [B] with one more
    reference to token [t] under id [i]. *)
Inductive extra_ref (t : string) (i : N) (A B : SymbolTable.t) : Prop :=
| extra_new :
    SymbolTable.encode_map_ B !! t = None →
    SymbolTable.decode_map_ B !! i = None →
    SymbolTable.encode_map_ A
      = <[t := SymbolTable.mkSharedSymbol i 1]> (SymbolTable.encode_map_ B) →
    SymbolTable.decode_map_ A = <[i := t]> (SymbolTable.decode_map_ B) →
    extra_ref t i A B
| extra_bump rc :
    SymbolTable.encode_map_ B !! t = Some (SymbolTable.mkSharedSymbol i rc) →
    1 ≤ rc → rc + 1 < 2 ^ 32 →
    SymbolTable.encode_map_ A
      = <[t := SymbolTable.mkSharedSymbol i (rc + 1)]> (SymbolTable.encode_map_ B) →
    SymbolTable.decode_map_ A = SymbolTable.decode_map_ B →
    extra_ref t i A B.

(** Every token of [toks] that the table holds has between 1 and [k]
    references. *)
Definition rc_bounded (toks : list string) (k : N) (tb : SymbolTable.t) : Prop :=
  ∀ tok shared,
    tok ∈ toks → SymbolTable.encode_map_ tb !! tok = Some shared →
    1 ≤ SymbolTable.ref_count_ shared ≤ k.

(** The packed name of a token sequence: its ids added one by one, then
    moved to storage. *)
Definition packed_name (symbols : list N) : option (list N) :=
  '(bytes_, _, _) ←
    SymbolEncoding.moveToStorage (foldl SymbolEncoding.addSymbol [] symbols);
  Some bytes_.

(** A fresh table after [encode("a.b")] and [encode("a.c")]. *)
Definition table_two_names : SymbolTable.t :=
  match StatNameStorage.of_name "a.b" SymbolTable.init with
  | Some (tb, _) =>
      match StatNameStorage.of_name "a.c" tb with
      | Some (tb', _) => tb'
      | None => SymbolTable.init
      end
  | None => SymbolTable.init
  end.

(** ** The rest of the packed-name interface *)

Definition u64 (n : N) : N := n mod 2 ^ 64.

(** [StatName::copyToStorage], also the body of
    [StatName(const StatName& src, SymbolStorage memory)]:
    [memcpy(storage, size_and_data_, size())].  The result is the content of
    the destination array. *)
Definition StatName_copyToStorage (size_and_data_ : list N) : list N :=
  take (N.to_nat (StatName.size size_and_data_)) size_and_data_.

(** [StatName::operator!=] *)
Definition StatName_neqb (lhs rhs : list N) : bool := negb (StatName.eqb lhs rhs).

(** [StatName::hash]: [HashUtil::xxHash64] over the [dataSize()] bytes at
    [data()].  The hash function lives outside these files and is a
    parameter. *)
Definition StatName_hash (xxHash64 : list N → N) (size_and_data_ : list N) : N :=
  xxHash64 (take (N.to_nat (StatName.dataSize size_and_data_))
                 (StatName.data size_and_data_)).

(** [SymbolTable::~SymbolTable]: [ASSERT(numSymbols() == 0)]. *)
Definition SymbolTable_destroy (tb : SymbolTable.t) : option unit :=
  n ← SymbolTable.numSymbols tb;
  if n =? 0 then Some () else None.

(** [StatNameJoiner(const std::vector<StatName>&)]: a first loop adds up the
    payload sizes, [alloc] writes the length prefix, a second loop copies
    each payload behind the previous one. *)
Definition StatNameJoiner_join_list (stat_names : list (list N)) : option (list N) :=
  let num_bytes :=
    foldl (λ num_bytes stat_name, u64 (num_bytes + StatName.dataSize stat_name))
          0 stat_names in
  p ← StatNameJoiner.alloc num_bytes;
  Some (foldl (λ written stat_name,
                 written ++ take (N.to_nat (StatName.dataSize stat_name))
                                 (StatName.data stat_name))
              p stat_names).

(** [StatNameTempStorage]: the constructors of [StatNameStorage] together
    with a destructor that calls [free(symbol_table_)]. *)
Module StatNameTempStorage.

Definition of_name (name : string) (table : SymbolTable.t)
    : option (SymbolTable.t * list N) :=
  StatNameStorage.of_name name table.

Definition of_StatName (src : list N) (table : SymbolTable.t)
    : option (SymbolTable.t * list N) :=
  StatNameStorage.of_StatName src table.

Definition destroy (bytes_ : list N) (symbol_table_ : SymbolTable.t)
    : option SymbolTable.t :=
  StatNameStorage.free bytes_ symbol_table_.

End StatNameTempStorage.

(** ** Notions used to state the further properties *)

(** The reference count the table holds for a string, 0 when it has none. *)
Definition ref_count_of (tb : SymbolTable.t) (s : string) : N :=
  match SymbolTable.encode_map_ tb !! s with
  | Some shared => SymbolTable.ref_count_ shared
  | None => 0
  end.

(** Number of occurrences of a string in a list. *)
Definition occurrences (s : string) (l : list string) : N :=
  N.of_nat (length (filter (λ x, x = s) l)).

(** The ids of a packed name. *)
Definition symbols_of (stat_name : list N) : list N :=
  SymbolEncoding.decodeSymbols (StatName.data stat_name)
                               (StatName.dataSize stat_name).

(** Lexicographic comparison of token lists, tokens compared as strings and
    a proper prefix being smaller. *)
Fixpoint tokens_ltb (l1 l2 : list string) : bool :=
  match l1, l2 with
  | [], [] => false
  | [], _ :: _ => true
  | _ :: _, [] => false
  | x :: l1', y :: l2' =>
      if decide (x = y) then tokens_ltb l1' l2' else String.ltb x y
  end.

(** Every id up to the counter is the staged one, a pooled one or a live
    one, and the counter counts the live and the pooled ids. *)
Definition ids_dense (tb : SymbolTable.t) : Prop :=
  (∀ i, i ≤ SymbolTable.monotonic_counter_ tb →
        i = SymbolTable.next_symbol_ tb
        ∨ i ∈ SymbolTable.pool_ tb
        ∨ is_Some (SymbolTable.decode_map_ tb !! i))
  ∧ SymbolTable.monotonic_counter_ tb
    = N.of_nat (size (SymbolTable.decode_map_ tb) + length (SymbolTable.pool_ tb)).

(** The pieces [encode] interns for a name: none for the empty name. *)
Definition tokens_of (name : string) : list string :=
  match name with
  | EmptyString => []
  | _ => StrSplit name "."
  end.

(** A fresh table after [encode("a.b")]. *)
Definition table_after_two_tokens : SymbolTable.t :=
  match SymbolTable.encode SymbolTable.init "a.b" with
  | Some (tb, _) => tb
  | None => SymbolTable.init
  end.

(** [table_after_encode] after a further [encode("cluster.y.rq_total")]. *)
Definition table_two_names_shared : SymbolTable.t :=
  match SymbolTable.encode table_after_encode "cluster.y.rq_total" with
  | Some (tb, _) => tb
  | None => SymbolTable.init
  end.

(** Number of occurrences of an id in a list of ids. *)
Definition id_occurrences (i : N) (l : list N) : N :=
  N.of_nat (length (filter (λ x, x = i) l)).

(** [table_two_names_shared] after [free] of the first of its two names. *)
Definition table_two_names_released : SymbolTable.t :=
  match SymbolTable.free table_two_names_shared [3; 0; 0; 1; 2] with
  | Some tb => tb
  | None => SymbolTable.init
  end.

(** * Properties *)

(** ** Bit-level facts *)

Section bits.

Lemma land_low7_small s : s < 128 → N.land s Low7Bits = s.
Proof.
  intros Hs. change Low7Bits with (N.ones 7).
  rewrite N.land_ones. apply N.mod_small. exact Hs.
Qed.

Lemma land_spill_small s : s < 128 → N.land s SpilloverMask = 0.
Proof.
  intros Hs. rewrite <- (land_low7_small s Hs), <- N.land_assoc.
  change (N.land Low7Bits SpilloverMask) with 0. apply N.land_0_r.
Qed.

Lemma land_low7_cont s :
  N.land (N.lor (N.land s Low7Bits) SpilloverMask) Low7Bits = N.land s Low7Bits.
Proof.
  rewrite N.land_lor_distr_l, <- N.land_assoc.
  change (N.land Low7Bits Low7Bits) with Low7Bits.
  change (N.land SpilloverMask Low7Bits) with 0. apply N.lor_0_r.
Qed.

Lemma land_spill_cont s :
  N.land (N.lor (N.land s Low7Bits) SpilloverMask) SpilloverMask = SpilloverMask.
Proof.
  rewrite N.land_lor_distr_l, <- N.land_assoc.
  change (N.land Low7Bits SpilloverMask) with 0.
  rewrite N.land_0_r. reflexivity.
Qed.

Lemma low7_bound s : N.land s Low7Bits < 128.
Proof.
  change Low7Bits with (N.ones 7). rewrite N.land_ones.
  apply N.mod_lt. discriminate.
Qed.

Lemma cont_byte_bound s : N.lor (N.land s Low7Bits) SpilloverMask < 256.
Proof.
  pose proof (low7_bound s) as Hb.
  assert (N.lor (N.land s Low7Bits) SpilloverMask < 2 ^ 8) as H; [|exact H].
  destruct (N.eq_dec (N.lor (N.land s Low7Bits) SpilloverMask) 0) as [->|Hne];
    [reflexivity|].
  apply N.log2_lt_pow2; [lia|].
  rewrite N.log2_lor. apply N.max_lub_lt.
  - destruct (N.eq_dec (N.land s Low7Bits) 0) as [->|Hn]; [reflexivity|].
    apply N.log2_lt_pow2; [lia|]. simpl. lia.
  - reflexivity.
Qed.

Lemma split_low7 s :
  N.lor (N.land s Low7Bits) (N.shiftl (N.shiftr s 7) 7) = s.
Proof.
  change Low7Bits with (N.ones 7).
  rewrite <- N.ldiff_ones_r, N.lor_comm. apply N.lor_ldiff_and.
Qed.

Lemma split_low7_shifted s shift :
  N.lor (N.shiftl (N.land s Low7Bits) shift) (N.shiftl (N.shiftr s 7) (shift + 7))
  = N.shiftl s shift.
Proof.
  rewrite (N.add_comm shift 7), <- N.shiftl_shiftl, <- N.shiftl_lor.
  by rewrite split_low7.
Qed.

Lemma shiftl_low7_le s shift :
  N.shiftl (N.land s Low7Bits) shift ≤ N.shiftl s shift.
Proof.
  rewrite !N.shiftl_mul_pow2. apply N.mul_le_mono_r.
  change Low7Bits with (N.ones 7). rewrite N.land_ones.
  apply N.Div0.mod_le.
Qed.

Lemma shiftl_high_le s shift :
  N.shiftl (N.shiftr s 7) (shift + 7) ≤ N.shiftl s shift.
Proof.
  rewrite !N.shiftl_mul_pow2, N.shiftr_div_pow2, N.pow_add_r.
  rewrite (N.mul_comm (2 ^ shift)), N.mul_assoc.
  apply N.mul_le_mono_r.
  rewrite N.mul_comm. apply N.Div0.mul_div_le.
Qed.

Lemma shift_lt_32 s shift : 1 ≤ s → N.shiftl s shift < 2 ^ 32 → shift < 32.
Proof.
  intros Hs Hlt. rewrite N.shiftl_mul_pow2 in Hlt.
  destruct (N.lt_ge_cases shift 32) as [|Hge]; [done|].
  pose proof (N.pow_le_mono_r 2 32 shift ltac:(lia) Hge). nia.
Qed.

Lemma shift_small s shift :
  128 ≤ s → N.shiftl s shift < 2 ^ 32 → shift + 7 < 2 ^ 32.
Proof.
  intros Hs Hlt. assert (shift < 32); [|lia].
  apply (shift_lt_32 s); [lia|done].
Qed.

(** While the token fits 32 bits the shift count is below 32, so taking it
    modulo 32 changes nothing. *)
Lemma shiftl_low7_count s shift :
  N.shiftl s shift < 2 ^ 32 →
  N.shiftl (N.land s Low7Bits) (shift mod 32) = N.shiftl (N.land s Low7Bits) shift.
Proof.
  intros Hlt. destruct (N.eq_dec s 0) as [->|Hs].
  - by rewrite N.land_0_l, !N.shiftl_0_l.
  - rewrite N.mod_small; [done|]. apply (shift_lt_32 s); [lia|done].
Qed.

End bits.

(** ** The codec *)

Section codec.
Import SymbolEncoding.

Lemma base128_total s : ∃ bytes, base128 s bytes.
Proof.
  induction (N.lt_wf_0 s) as [s _ IH].
  destruct (N.lt_ge_cases s 128) as [Hlt|Hge].
  - eexists. by constructor.
  - destruct (IH (N.shiftr s 7)) as [bytes Hb].
    + rewrite N.shiftr_div_pow2. apply N.div_lt; lia.
    + eexists. by constructor.
Qed.

Lemma base128_functional s b1 b2 : base128 s b1 → base128 s b2 → b1 = b2.
Proof.
  intros H1. revert b2.
  induction H1 as [s Hs|s bytes Hs _ IH]; intros b2 H2;
    inversion H2; subst; try lia; [done|].
  f_equal. by apply IH.
Qed.

Lemma base128_nonempty s bytes : base128 s bytes → bytes ≠ [].
Proof. by destruct 1. Qed.

Lemma base128_bytes s bytes : base128 s bytes → Forall (λ b, b < 256) bytes.
Proof.
  induction 1 as [s Hs|s bytes Hs _ IH].
  - constructor; [lia|constructor].
  - constructor; [apply cont_byte_bound|done].
Qed.

Lemma size_shiftr7 s :
  128 ≤ s → (S (N.to_nat (N.size (N.shiftr s 7))) ≤ N.to_nat (N.size s))%nat.
Proof.
  intros Hs.
  assert (N.shiftr s 7 ≠ 0) as Hne.
  { rewrite N.shiftr_div_pow2. intros H0.
    apply N.div_small_iff in H0; [change (2 ^ 7) with 128 in H0; lia|done]. }
  rewrite !N.size_log2 by lia. rewrite N.log2_shiftr.
  assert (7 ≤ N.log2 s) by (by apply (N.log2_le_pow2 s 7); [lia|]).
  lia.
Qed.

(** The loop of [addSymbol] emits the base-128 bytes, whenever the fuel
    is at least the bit size of the symbol. *)
Lemma addSymbol_loop_base128 s bytes :
  base128 s bytes →
  ∀ fuel vec, (N.to_nat (N.size s) ≤ fuel)%nat →
              addSymbol_loop fuel s vec = vec ++ bytes.
Proof.
  induction 1 as [s Hs|s bytes Hs Hb IH]; intros fuel vec Hfuel.
  - assert (N.shiftr s 7 = 0) as Hz.
    { rewrite N.shiftr_div_pow2. by apply N.div_small. }
    assert (u8 s = s) as Hu by (apply N.mod_small; change (2 ^ 8) with 256; lia).
    destruct fuel as [|fuel]; simpl; rewrite ?Hz; simpl;
      (destruct (N.ltb_spec s (N.shiftl 1 7)) as [_|Hge];
       [by rewrite Hu | change (N.shiftl 1 7) with 128 in Hge; lia]).
  - pose proof (size_shiftr7 s Hs) as Hsz.
    destruct fuel as [|fuel]; [lia|]. simpl.
    destruct (N.ltb_spec s (N.shiftl 1 7)) as [Hlt|_];
      [change (N.shiftl 1 7) with 128 in Hlt; lia|].
    destruct (N.eqb_spec (N.shiftr s 7) 0) as [Hz|_].
    { rewrite N.shiftr_div_pow2 in Hz.
      apply N.div_small_iff in Hz; [change (2 ^ 7) with 128 in Hz; lia|done]. }
    rewrite IH by lia. rewrite <- app_assoc. simpl. do 2 f_equal.
    apply N.mod_small, cont_byte_bound.
Qed.

Lemma addSymbol_base128 s bytes vec :
  base128 s bytes → addSymbol vec s = vec ++ bytes.
Proof. intros Hb. unfold addSymbol. by apply addSymbol_loop_base128. Qed.

Lemma base128_addSymbol s : base128 s (addSymbol [] s).
Proof.
  destruct (base128_total s) as [bytes Hb].
  by rewrite (addSymbol_base128 s bytes [] Hb).
Qed.

(** [addSymbol] satisfies the equation of its [do ... while] loop. *)
Lemma addSymbol_unfold vec s :
  addSymbol vec s =
  let vec' :=
    if s <? N.shiftl 1 7 then vec ++ [u8 s]
    else vec ++ [u8 (N.lor (N.land s Low7Bits) SpilloverMask)] in
  if N.shiftr s 7 =? 0 then vec' else addSymbol vec' (N.shiftr s 7).
Proof.
  destruct (base128_total s) as [bytes Hb].
  rewrite (addSymbol_base128 s bytes vec Hb). cbv zeta.
  change (N.shiftl 1 7) with 128.
  destruct Hb as [s Hs|s bytes Hs Hb].
  - destruct (N.ltb_spec s 128); [|lia].
    assert (N.shiftr s 7 = 0) as ->.
    { rewrite N.shiftr_div_pow2. by apply N.div_small. }
    simpl. do 2 f_equal. symmetry. apply N.mod_small. change (2 ^ 8) with 256. lia.
  - destruct (N.ltb_spec s 128); [lia|].
    destruct (N.eqb_spec (N.shiftr s 7) 0) as [Hz|_].
    { rewrite N.shiftr_div_pow2 in Hz.
      apply N.div_small_iff in Hz; [change (2 ^ 7) with 128 in Hz; lia|done]. }
    rewrite (addSymbol_base128 _ bytes _ Hb), <- app_assoc. simpl. do 2 f_equal.
    symmetry. apply N.mod_small, cont_byte_bound.
Qed.

Lemma foldl_addSymbol ids chunks vec :
  Forall2 base128 ids chunks →
  foldl addSymbol vec ids = vec ++ concat chunks.
Proof.
  intros HF. revert vec.
  induction HF as [|s bytes ids chunks Hb _ IH]; intros vec; simpl.
  - by rewrite app_nil_r.
  - rewrite (addSymbol_base128 s bytes vec Hb), IH. by rewrite app_assoc.
Qed.

Lemma base128_chunks ids : Forall2 base128 ids (map (addSymbol []) ids).
Proof.
  induction ids as [|s ids IH]; simpl; constructor; [apply base128_addSymbol|done].
Qed.

(** Decoding the bytes of one token, from any loop state whose shift keeps
    the token inside 32 bits. *)
Lemma decodeSymbols_loop_base128 s bytes :
  base128 s bytes →
  ∀ rest symbol shift symbol_vec,
    N.shiftl s shift < 2 ^ 32 →
    decodeSymbols_loop (bytes ++ rest) symbol shift symbol_vec
    = decodeSymbols_loop rest 0 0 (symbol_vec ++ [N.lor symbol (N.shiftl s shift)]).
Proof.
  induction 1 as [s Hs|s bytes Hs Hb IH]; intros rest symbol shift acc Hlt;
    cbn [decodeSymbols_loop app].
  - rewrite (shiftl_low7_count s shift Hlt).
    rewrite (land_low7_small s Hs), (land_spill_small s Hs). simpl.
    unfold u32. by rewrite (N.mod_small _ _ Hlt).
  - rewrite land_low7_cont, land_spill_cont, (shiftl_low7_count s shift Hlt).
    simpl.
    pose proof (shiftl_low7_le s shift) as Hlo.
    pose proof (shiftl_high_le s shift) as Hhi.
    pose proof (shift_small s shift Hs Hlt) as Hsh.
    unfold u32. rewrite (N.mod_small (N.shiftl _ _)) by lia.
    rewrite (N.mod_small (shift + 7)) by lia.
    rewrite IH by lia.
    by rewrite <- N.lor_assoc, split_low7_shifted.
Qed.

Lemma decodeSymbols_loop_chunks ids chunks :
  Forall2 base128 ids chunks →
  Forall (λ s, s < 2 ^ 32) ids →
  ∀ rest symbol_vec,
    decodeSymbols_loop (concat chunks ++ rest) 0 0 symbol_vec
    = decodeSymbols_loop rest 0 0 (symbol_vec ++ ids).
Proof.
  induction 1 as [|s bytes ids chunks Hb _ IH]; intros Hids rest acc; simpl.
  - by rewrite app_nil_r.
  - apply Forall_cons in Hids as [Hs Hids].
    rewrite <- app_assoc, (decodeSymbols_loop_base128 s bytes Hb)
      by (by rewrite N.shiftl_0_r).
    rewrite N.shiftl_0_r, N.lor_0_l, IH by done.
    by rewrite <- app_assoc.
Qed.

(** Codec round trip: decoding exactly the encoded bytes gives back the
    32-bit ids. *)
Lemma decodeSymbols_encoding ids :
  Forall (λ s, s < 2 ^ 32) ids →
  decodeSymbols (foldl addSymbol [] ids) (size (foldl addSymbol [] ids)) = ids.
Proof.
  intros Hids. unfold decodeSymbols, size.
  rewrite Nat2N.id, firstn_all.
  rewrite (foldl_addSymbol ids _ [] (base128_chunks ids)). simpl.
  rewrite <- (app_nil_r (concat _)).
  by rewrite (decodeSymbols_loop_chunks ids _ (base128_chunks ids) Hids).
Qed.

End codec.

(** ** Packed-name layout *)

Section layout.
Import SymbolEncoding.

Lemma saveLength_ok len :
  len < StatNameMaxSize →
  saveLengthToBytesReturningNext len = Some [N.land len 0xFF; N.shiftr len 8].
Proof.
  intros Hlen. unfold saveLengthToBytesReturningNext.
  destruct (N.ltb_spec len StatNameMaxSize); [|lia].
  change StatNameMaxSize with (2 ^ 16) in Hlen.
  do 2 f_equal; [|f_equal]; apply N.mod_small.
  - change 0xFF with (N.ones 8). rewrite N.land_ones. by apply N.mod_lt.
  - rewrite N.shiftr_div_pow2. apply N.Div0.div_lt_upper_bound.
    by change (2 ^ 8 * 2 ^ 8) with (2 ^ 16).
Qed.

Lemma saveLength_too_long len :
  StatNameMaxSize ≤ len → saveLengthToBytesReturningNext len = None.
Proof.
  intros Hlen. unfold saveLengthToBytesReturningNext.
  destruct (N.ltb_spec len StatNameMaxSize); [lia|done].
Qed.

Lemma dataSize_prefix len payload :
  StatName.dataSize ([N.land len 0xFF; N.shiftr len 8] ++ payload) = len.
Proof.
  unfold StatName.dataSize. simpl.
  change 0xFF with (N.ones 8).
  rewrite <- N.ldiff_ones_r, N.lor_comm. apply N.lor_ldiff_and.
Qed.

Lemma data_prefix b0 b1 payload : StatName.data ([b0; b1] ++ payload) = payload.
Proof. reflexivity. Qed.

Lemma moveToStorage_ok vec :
  size vec < StatNameMaxSize →
  moveToStorage vec
  = Some ([N.land (size vec) 0xFF; N.shiftr (size vec) 8] ++ vec, [],
          size vec + 2).
Proof.
  intros Hlen. unfold moveToStorage. rewrite (saveLength_ok _ Hlen). simpl.
  destruct (N.eqb_spec (size vec) 0) as [Hz|_]; [|done].
  destruct vec; [done|]. unfold size in Hz. simpl in Hz. lia.
Qed.

Lemma moveToStorage_too_long vec :
  StatNameMaxSize ≤ size vec → moveToStorage vec = None.
Proof.
  intros Hlen. unfold moveToStorage. by rewrite (saveLength_too_long _ Hlen).
Qed.

End layout.

(** C2. Packed-name byte layout: adding each id with [addSymbol] and calling
    [moveToStorage] writes the low byte of the payload length, then its high
    byte, then the payload, in which every id is the base-128 little-endian
    byte string the specification describes ([base128]); [dataSize] reads the
    payload length back from the two prefix bytes, and id 0 is the single
    byte 0x00.  [moveToStorage] asserts that the payload is shorter than
    [StatNameMaxSize] = 65536 bytes. *)
Theorem C2_packed_name_layout (ids : list N) (chunks : list (list N)) :
  Forall2 base128 ids chunks →
  N.of_nat (length (concat chunks)) < StatNameMaxSize →
  let payload := concat chunks in
  let len := N.of_nat (length payload) in
  let packed := [N.land len 0xFF; N.shiftr len 8] ++ payload in
  SymbolEncoding.moveToStorage (foldl SymbolEncoding.addSymbol [] ids)
    = Some (packed, [], len + StatNameSizeEncodingBytes)
  ∧ StatName.dataSize packed = len
  ∧ StatName.data packed = payload
  ∧ SymbolEncoding.addSymbol [] 0 = [0x00].
Proof.
  intros Hchunks Hlen payload len packed.
  rewrite (foldl_addSymbol ids chunks [] Hchunks). simpl.
  split; [by apply moveToStorage_ok|].
  split; [apply dataSize_prefix|]. done.
Qed.

Lemma C2_packed_name_layout_witness :
  SymbolEncoding.moveToStorage (foldl SymbolEncoding.addSymbol [] [0; 300; 5])
  = Some ([4; 0; 0x00; 0xAC; 0x02; 5], [], 6).
Proof.
  pose proof (C2_packed_name_layout [0; 300; 5] [[0]; [0xAC; 2]; [5]]) as H.
  apply H.
  - repeat constructor; vm_compute; (done || (intros E; discriminate E)).
  - reflexivity.
Defined.

(** ** Truncated payloads *)

Lemma decodeSymbols_loop_dangling dangling :
  Forall (λ b, N.land b SpilloverMask ≠ 0) dangling →
  ∀ symbol shift symbol_vec,
    SymbolEncoding.decodeSymbols_loop dangling symbol shift symbol_vec = symbol_vec.
Proof.
  induction 1 as [|b dangling Hb _ IH]; intros symbol shift acc; simpl; [done|].
  destruct (N.eqb_spec (N.land b SpilloverMask) 0); [done|]. apply IH.
Qed.

Lemma decodeSymbols_loop_app_dangling dangling :
  Forall (λ b, N.land b SpilloverMask ≠ 0) dangling →
  ∀ bytes symbol shift symbol_vec,
    SymbolEncoding.decodeSymbols_loop (bytes ++ dangling) symbol shift symbol_vec
    = SymbolEncoding.decodeSymbols_loop bytes symbol shift symbol_vec.
Proof.
  intros Hd bytes. induction bytes as [|uc bytes IH]; intros symbol shift acc.
  - by apply decodeSymbols_loop_dangling.
  - simpl. destruct (N.eqb_spec (N.land uc SpilloverMask) 0); apply IH.
Qed.

(** C4 (as the code has it). [decodeSymbols] has no failure path.  Given
    the encoding of [ids] followed by the bytes of an unfinished token (every
    one with its continuation bit set), it returns exactly [ids]: the
    unfinished token is dropped without any error, and with no such trailing
    bytes the result is the encoded ids.  More generally, trailing
    continuation bytes never change what the bytes before them decode to. *)
Theorem C4_decodeSymbols_drops_incomplete_token (ids dangling : list N) :
  Forall (λ s, s < 2 ^ 32) ids →
  Forall (λ b, N.land b SpilloverMask ≠ 0) dangling →
  (let bytes := foldl SymbolEncoding.addSymbol [] ids ++ dangling in
   SymbolEncoding.decodeSymbols bytes (N.of_nat (length bytes)) = ids)
  ∧ (∀ bytes,
       SymbolEncoding.decodeSymbols (bytes ++ dangling)
                                    (N.of_nat (length (bytes ++ dangling)))
       = SymbolEncoding.decodeSymbols bytes (N.of_nat (length bytes))).
Proof.
  intros Hids Hd.
  assert (∀ bytes,
            SymbolEncoding.decodeSymbols (bytes ++ dangling)
                                         (N.of_nat (length (bytes ++ dangling)))
            = SymbolEncoding.decodeSymbols bytes (N.of_nat (length bytes))) as Hdrop.
  { intros bytes. unfold SymbolEncoding.decodeSymbols.
    rewrite !Nat2N.id, !firstn_all. by apply decodeSymbols_loop_app_dangling. }
  split; [|exact Hdrop].
  cbv zeta. rewrite Hdrop. by apply decodeSymbols_encoding.
Qed.

Lemma C4_decodeSymbols_drops_incomplete_token_witness :
  SymbolEncoding.decodeSymbols [0xAC; 0x02; 7; 0x81; 0x80] 5 = [300; 7].
Proof.
  apply (C4_decodeSymbols_drops_incomplete_token [300; 7] [0x81; 0x80]).
  - repeat constructor.
  - repeat constructor; vm_compute; intros E; discriminate E.
Defined.

(** ** Invariants of the table operations *)

Section table_invariants.
Import SymbolTable.

Lemma bimap_init : bimap init.
Proof.
  split; simpl.
  - intros s id. rewrite !lookup_empty. split; [intros [? ?]|]; done.
  - by rewrite !map_size_empty.
Qed.

Lemma ids_ok_init : ids_ok init.
Proof.
  split; simpl; try done;
    try (intros p Hp; by apply not_elem_of_nil in Hp).
  - apply not_elem_of_nil.
  - constructor.
Qed.

Lemma wf_init : wf init.
Proof. split; [apply bimap_init | apply ids_ok_init]. Qed.

(** *** The bimap under the three map updates the code performs *)

Lemma bimap_set_ref_count em dm str shared rc :
  bimap_maps em dm →
  em !! str = Some shared →
  bimap_maps (<[str := mkSharedSymbol (symbol_ shared) rc]> em) dm.
Proof.
  intros [Hinv Hsz] Hstr. destruct shared as [id0 rc0]. simpl. split.
  - intros s id. rewrite <- Hinv. destruct (decide (str = s)) as [->|Hne].
    + rewrite lookup_insert_eq, Hstr.
      split; intros [? [= <-]]; eauto.
    + by rewrite lookup_insert_ne.
  - rewrite map_size_insert_Some; eauto.
Qed.

Lemma bimap_insert_new em dm sv id :
  bimap_maps em dm →
  em !! sv = None → dm !! id = None →
  bimap_maps (<[sv := newSharedSymbol id]> em) (<[id := sv]> dm).
Proof.
  intros [Hinv Hsz] Hsv Hid. split.
  - intros s i. destruct (decide (sv = s)) as [->|Hs].
    + rewrite lookup_insert_eq. destruct (decide (id = i)) as [->|Hi].
      * rewrite lookup_insert_eq. split; [done|]. intros _. by exists 1.
      * rewrite lookup_insert_ne by done. split.
        -- intros [? [= ?]]. done.
        -- intros H%Hinv. destruct H as [? H]. by rewrite Hsv in H.
    + rewrite lookup_insert_ne by done. destruct (decide (id = i)) as [->|Hi].
      * rewrite lookup_insert_eq. split.
        -- intros H%Hinv. by rewrite Hid in H.
        -- intros [= ?]. done.
      * rewrite lookup_insert_ne by done. apply Hinv.
  - rewrite !map_size_insert_None by done. by rewrite Hsz.
Qed.

Lemma bimap_erase em dm symbol str shared :
  bimap_maps em dm →
  dm !! symbol = Some str → em !! str = Some shared →
  bimap_maps (delete str em) (delete symbol dm).
Proof.
  intros [Hinv Hsz] Hsym Hstr. split.
  - intros s i. destruct (decide (str = s)) as [->|Hs].
    + rewrite lookup_delete_eq. split; [by intros [? ?]|].
      destruct (decide (symbol = i)) as [->|Hi].
      * by rewrite lookup_delete_eq.
      * rewrite lookup_delete_ne by done. intros Hi'.
        apply Hinv in Hsym as [? Hsym]. apply Hinv in Hi' as [? Hi'].
        rewrite Hsym in Hi'. by injection Hi'.
    + rewrite lookup_delete_ne by done.
      destruct (decide (symbol = i)) as [->|Hi].
      * rewrite lookup_delete_eq. split; [|done].
        intros H%Hinv. rewrite Hsym in H. by injection H.
      * rewrite lookup_delete_ne by done. apply Hinv.
  - rewrite !map_size_delete_Some by eauto. by rewrite Hsz.
Qed.

Lemma bimap_symbol_of em dm symbol str shared :
  bimap_maps em dm →
  dm !! symbol = Some str → em !! str = Some shared → symbol_ shared = symbol.
Proof.
  intros [Hinv _] Hsym Hstr. apply Hinv in Hsym as [rc Hsym].
  rewrite Hstr in Hsym. by injection Hsym as ->.
Qed.

Lemma bimap_decode_of em dm sv shared :
  bimap_maps em dm → em !! sv = Some shared → dm !! symbol_ shared = Some sv.
Proof.
  intros [Hinv _] Hsv. destruct shared as [id rc]. apply Hinv. eauto.
Qed.

(** *** [newSymbol] *)

Lemma newSymbol_maps tb tb' :
  newSymbol tb = Some tb' →
  encode_map_ tb' = encode_map_ tb ∧ decode_map_ tb' = decode_map_ tb.
Proof.
  unfold newSymbol. destruct (pool_ tb); simpl;
    case_match; intros [= <-]; done.
Qed.

(** An increment of a 32-bit counter that does not land on zero did not
    wrap. *)
Lemma u32_succ_nonzero c : c < 2 ^ 32 → u32 (c + 1) ≠ 0 → u32 (c + 1) = c + 1.
Proof.
  intros Hc Hne. unfold u32 in *.
  destruct (N.eq_dec (c + 1) (2 ^ 32)) as [E|E].
  - rewrite E in Hne. by rewrite N.Div0.mod_same in Hne.
  - apply N.mod_small. lia.
Qed.

(** *** [toSymbol] *)

Lemma toSymbol_bimap tb sv tb' id :
  bimap tb → toSymbol tb sv = Some (tb', id) →
  bimap tb'
  ∧ decode_map_ tb' !! id = Some sv
  ∧ (∃ rc, encode_map_ tb' !! sv = Some (mkSharedSymbol id rc))
  ∧ (∀ i s, decode_map_ tb !! i = Some s → decode_map_ tb' !! i = Some s).
Proof.
  intros Hbi. unfold toSymbol.
  destruct (encode_map_ tb !! sv) as [shared|] eqn:Hsv.
  - intros [= <- <-]. unfold bimap. simpl.
    split; [by apply bimap_set_ref_count|].
    split; [by eapply bimap_decode_of|].
    split; [|done]. rewrite lookup_insert_eq. eauto.
  - destruct (decode_map_ tb !! next_symbol_ tb) eqn:Hnext; [done|].
    destruct (newSymbol _) as [tb1|] eqn:Hnew; [|done].
    simpl. intros [= <- <-].
    apply newSymbol_maps in Hnew as [Hem Hdm]. simpl in Hem, Hdm.
    unfold bimap. rewrite Hem, Hdm.
    split; [by apply bimap_insert_new|].
    split; [by rewrite lookup_insert_eq|].
    split; [rewrite lookup_insert_eq; by exists 1|].
    intros i s Hi. rewrite lookup_insert_ne; [done|]. congruence.
Qed.

Lemma toSymbol_ids_ok tb sv tb' id :
  ids_ok tb → toSymbol tb sv = Some (tb', id) →
  ids_ok tb'
  ∧ monotonic_counter_ tb ≤ monotonic_counter_ tb'
  ∧ monotonic_counter_ tb' ≤ monotonic_counter_ tb + 1.
Proof.
  intros [Hfresh Hnp Hnd Hpf Hnle Hple Hlle Hc Hst]. unfold toSymbol.
  destruct (encode_map_ tb !! sv) as [shared|] eqn:Hsv.
  - intros [= <- <-]. simpl. split; [by split|lia].
  - rewrite Hfresh. unfold newSymbol. simpl.
    destruct (pool_ tb) as [|top rest] eqn:Hpool; simpl.
    + destruct (N.eqb_spec (u32 (monotonic_counter_ tb + 1)) 0) as [|Hne];
        [done|].
      intros [= <- <-]. simpl.
      pose proof (u32_succ_nonzero _ Hc Hne) as Hu.
      rewrite Hu. split; [|lia]. split; simpl.
      * rewrite lookup_insert_ne by lia.
        destruct (decode_map_ tb !! (monotonic_counter_ tb + 1)) eqn:E;
          [|done].
        apply Hlle in E. lia.
      * apply not_elem_of_nil.
      * constructor.
      * intros p Hp. by apply not_elem_of_nil in Hp.
      * lia.
      * intros p Hp. by apply not_elem_of_nil in Hp.
      * intros i s. destruct (decide (next_symbol_ tb = i)) as [<-|Hi].
        -- intros _. lia.
        -- rewrite lookup_insert_ne by done. intros E%Hlle. lia.
      * unfold u32 in Hu. rewrite <- Hu. by apply N.mod_lt.
      * lia.
    + destruct (N.eqb_spec (monotonic_counter_ tb) 0) as [|Hne]; [done|].
      intros [= <- <-]. simpl.
      apply NoDup_cons in Hnd as [Htop Hnd].
      apply not_elem_of_cons in Hnp as [Hnt Hnr].
      split; [|lia]. split; simpl.
      * rewrite lookup_insert_ne by done. apply Hpf. by left.
      * done.
      * done.
      * intros p Hp. rewrite lookup_insert_ne.
        -- apply Hpf. by right.
        -- intros E. by subst p.
      * apply Hple. by left.
      * intros p Hp. apply Hple. by right.
      * intros i s. destruct (decide (next_symbol_ tb = i)) as [<-|Hi].
        -- done.
        -- rewrite lookup_insert_ne by done. apply Hlle.
      * done.
      * done.
Qed.

Lemma toSymbol_total tb sv :
  ids_ok tb → monotonic_counter_ tb + 1 < 2 ^ 32 → is_Some (toSymbol tb sv).
Proof.
  intros [Hfresh Hnp Hnd Hpf Hnle Hple Hlle Hc Hst] Hroom. unfold toSymbol.
  destruct (encode_map_ tb !! sv) as [shared|]; [done|].
  rewrite Hfresh. unfold newSymbol. simpl.
  destruct (pool_ tb) as [|top rest] eqn:Hpool; simpl.
  - unfold u32. rewrite N.mod_small by done.
    destruct (N.eqb_spec (monotonic_counter_ tb + 1) 0); [lia|done].
  - destruct (N.eqb_spec (monotonic_counter_ tb) 0) as [E|]; [|done].
    by destruct (Hst E).
Qed.

(** *** The locked loop of [encode] *)

Lemma toSymbols_wf tokens : ∀ tb tb' ids,
  wf tb → toSymbols tb tokens = Some (tb', ids) →
  wf tb'
  ∧ monotonic_counter_ tb ≤ monotonic_counter_ tb'
  ∧ Forall2 (λ id tok, decode_map_ tb' !! id = Some tok) ids tokens
  ∧ (∀ i s, decode_map_ tb !! i = Some s → decode_map_ tb' !! i = Some s).
Proof.
  induction tokens as [|token tokens IH]; intros tb tb' ids [Hbi Hids]; simpl.
  - intros [= <- <-]. split; [done|]. split; [lia|]. split; [constructor|done].
  - destruct (toSymbol tb token) as [[tb1 symbol]|] eqn:H1; [|done]. simpl.
    destruct (toSymbols tb1 tokens) as [[tb2 symbols]|] eqn:H2; [|done]. simpl.
    intros [= <- <-].
    destruct (toSymbol_bimap _ _ _ _ Hbi H1) as (Hbi1 & Hsym & _ & Hkeep1).
    destruct (toSymbol_ids_ok _ _ _ _ Hids H1) as (Hids1 & Hmono1 & _).
    destruct (IH _ _ _ (conj Hbi1 Hids1) H2) as (Hwf2 & Hmono2 & HF & Hkeep2).
    split; [done|]. split; [lia|]. split; [|by auto].
    constructor; [by apply Hkeep2|done].
Qed.

Lemma toSymbols_total tokens : ∀ tb,
  wf tb →
  monotonic_counter_ tb + N.of_nat (length tokens) < 2 ^ 32 →
  is_Some (toSymbols tb tokens).
Proof.
  induction tokens as [|token tokens IH]; intros tb [Hbi Hids] Hroom; simpl.
  - done.
  - simpl in Hroom.
    destruct (toSymbol_total tb token Hids) as [[tb1 symbol] H1]; [lia|].
    rewrite H1. simpl.
    destruct (toSymbol_bimap _ _ _ _ Hbi H1) as (Hbi1 & _).
    destruct (toSymbol_ids_ok _ _ _ _ Hids H1) as (Hids1 & _ & Hmono1).
    destruct (IH tb1 (conj Hbi1 Hids1)) as [[tb2 symbols] H2]; [lia|].
    by rewrite H2.
Qed.

(** *** [free] and [incRefCount] *)

Lemma free_symbol_wf tb symbol tb' :
  wf tb → free_symbol tb symbol = Some tb' →
  wf tb'
  ∧ monotonic_counter_ tb' = monotonic_counter_ tb
  ∧ next_symbol_ tb' = next_symbol_ tb.
Proof.
  intros [Hbi [Hfresh Hnp Hnd Hpf Hnle Hple Hlle Hc Hst]]. unfold free_symbol.
  destruct (decode_map_ tb !! symbol) as [str|] eqn:Hsym; [|done]. simpl.
  destruct (encode_map_ tb !! str) as [shared|] eqn:Hstr; [|done]. simpl.
  case_match; intros [= <-]; simpl; (split; [|done]).
  - split; [by eapply bimap_erase|]. split; simpl.
    + by apply lookup_delete_None; right.
    + apply not_elem_of_cons. split; [congruence|done].
    + apply NoDup_cons. split; [|done]. intros Hp%Hpf. congruence.
    + intros p [->|Hp]%elem_of_cons.
      * apply lookup_delete_eq.
      * apply lookup_delete_None. right. by apply Hpf.
    + done.
    + intros p [->|Hp]%elem_of_cons; [by eapply Hlle|by apply Hple].
    + intros i s [_ Hi]%lookup_delete_Some. by eapply Hlle.
    + done.
    + intros E. destruct (Hst E) as [Hdm _]. by rewrite Hdm in Hsym.
  - split; [by apply bimap_set_ref_count|]. by split.
Qed.

Lemma incRefCount_symbol_wf tb symbol tb' :
  wf tb → incRefCount_symbol tb symbol = Some tb' →
  wf tb'
  ∧ monotonic_counter_ tb' = monotonic_counter_ tb
  ∧ next_symbol_ tb' = next_symbol_ tb.
Proof.
  intros [Hbi Hids]. unfold incRefCount_symbol.
  destruct (decode_map_ tb !! symbol) as [str|] eqn:Hsym; [|done]. simpl.
  destruct (encode_map_ tb !! str) as [shared|] eqn:Hstr; [|done]. simpl.
  intros [= <-]; simpl. split; [|done].
  split; [by apply bimap_set_ref_count|]. by destruct Hids.
Qed.

Lemma for_each_invariant (P : t → Prop) body symbols : ∀ tb tb',
  (∀ tb symbol tb', P tb → body tb symbol = Some tb' → P tb') →
  P tb → for_each body tb symbols = Some tb' → P tb'.
Proof.
  induction symbols as [|symbol symbols IH]; intros tb tb' Hstep HP; simpl.
  - by intros [= <-].
  - destruct (body tb symbol) as [tb1|] eqn:H1; [|done]. simpl.
    apply IH; eauto.
Qed.

Lemma encode_wf tb name tb' e :
  wf tb → encode tb name = Some (tb', e) →
  wf tb' ∧ monotonic_counter_ tb ≤ monotonic_counter_ tb'.
Proof.
  intros Hwf. unfold encode. destruct name as [|c name].
  - by intros [= <- <-].
  - destruct (toSymbols _ _) as [[tb1 symbols]|] eqn:H1; [|done]. simpl.
    intros [= <- <-].
    by destruct (toSymbols_wf _ _ _ _ Hwf H1) as (? & ? & _).
Qed.

Lemma free_wf tb stat_name tb' :
  wf tb → free tb stat_name = Some tb' →
  wf tb' ∧ monotonic_counter_ tb' = monotonic_counter_ tb
  ∧ next_symbol_ tb' = next_symbol_ tb.
Proof.
  intros Hwf. unfold free.
  apply (for_each_invariant
           (λ x, wf x ∧ monotonic_counter_ x = monotonic_counter_ tb
                 ∧ next_symbol_ x = next_symbol_ tb)); [|done].
  intros tb1 symbol tb2 (Hwf1 & Hm & Hn) Hstep.
  destruct (free_symbol_wf _ _ _ Hwf1 Hstep) as (? & ? & ?).
  split; [done|]. split; congruence.
Qed.

Lemma incRefCount_wf tb stat_name tb' :
  wf tb → incRefCount tb stat_name = Some tb' →
  wf tb' ∧ monotonic_counter_ tb' = monotonic_counter_ tb
  ∧ next_symbol_ tb' = next_symbol_ tb.
Proof.
  intros Hwf. unfold incRefCount.
  apply (for_each_invariant
           (λ x, wf x ∧ monotonic_counter_ x = monotonic_counter_ tb
                 ∧ next_symbol_ x = next_symbol_ tb)); [|done].
  intros tb1 symbol tb2 (Hwf1 & Hm & Hn) Hstep.
  destruct (incRefCount_symbol_wf _ _ _ Hwf1 Hstep) as (? & ? & ?).
  split; [done|]. split; congruence.
Qed.

Lemma table_step_wf tb tb' :
  wf tb → table_step tb tb' →
  wf tb' ∧ monotonic_counter_ tb ≤ monotonic_counter_ tb'.
Proof.
  intros Hwf Hstep. destruct Hstep as [tb name tb' e H|tb sn tb' H|tb sn tb' H].
  - by eapply encode_wf.
  - destruct (free_wf _ _ _ Hwf H) as (? & -> & _). done.
  - destruct (incRefCount_wf _ _ _ Hwf H) as (? & -> & _). done.
Qed.

Lemma reachable_wf tb : reachable tb → wf tb.
Proof.
  induction 1 as [|tb tb' _ IH Hstep]; [apply wf_init|].
  by destruct (table_step_wf _ _ IH Hstep).
Qed.

End table_invariants.

(** ** Claims about reachable table states *)

Lemma table_after_encode_reachable : reachable table_after_encode.
Proof.
  eapply reachable_step; [apply reachable_init|].
  apply (step_encode SymbolTable.init "cluster.x.rq_total" _ [0; 1; 2]).
  vm_compute. reflexivity.
Qed.

Lemma table_after_free_reachable : reachable table_after_free.
Proof.
  eapply reachable_step.
  - eapply reachable_step; [apply reachable_init|].
    apply (step_encode SymbolTable.init "a"
             (SymbolTable.mk 1 1 {["a" := SymbolTable.mkSharedSymbol 0 1]}
                             {[0 := "a"]} []) [0]).
    vm_compute. reflexivity.
  - apply (step_free _ [1; 0; 0]). vm_compute. reflexivity.
Qed.

(** C6. Bimap invariant: in every table state reachable from a fresh table
    by [encode], [free] and [incRefCount], the encode map and the decode map
    have the same size (so that the assertion of [numSymbols] holds) and are
    inverse to each other: [s] maps to id [i] with some reference count
    exactly when [i] maps to [s]. *)
Theorem C6_bimap_invariant (tb : SymbolTable.t) :
  reachable tb →
  size (SymbolTable.encode_map_ tb) = size (SymbolTable.decode_map_ tb)
  ∧ SymbolTable.numSymbols tb = Some (N.of_nat (size (SymbolTable.decode_map_ tb)))
  ∧ ∀ s id,
      (∃ rc, SymbolTable.encode_map_ tb !! s
             = Some (SymbolTable.mkSharedSymbol id rc))
      ↔ SymbolTable.decode_map_ tb !! id = Some s.
Proof.
  intros [[Hinv Hsz] _]%reachable_wf.
  split; [done|]. split; [|done].
  unfold SymbolTable.numSymbols. rewrite Hsz. by case_decide.
Qed.

Lemma C6_bimap_invariant_witness :
  SymbolTable.numSymbols table_after_encode = Some 3.
Proof.
  pose proof (C6_bimap_invariant table_after_encode
                table_after_encode_reachable) as (_ & H & _).
  exact H.
Defined.

(** C3, refuted as stated: the first token interned into a fresh table
    receives id 0, and that id is then present in both maps of a reachable
    state. *)
Lemma C3_counterexample :
  (snd <$> SymbolTable.toSymbol SymbolTable.init "cluster") = Some 0
  ∧ reachable table_after_encode
  ∧ SymbolTable.decode_map_ table_after_encode !! 0 = Some "cluster"
  ∧ SymbolTable.encode_map_ table_after_encode !! "cluster"
    = Some (SymbolTable.mkSharedSymbol 0 1)
  ∧ ¬ (∀ tb id s, reachable tb → SymbolTable.decode_map_ tb !! id = Some s → 1 ≤ id).
Proof.
  split; [by vm_compute|].
  split; [apply table_after_encode_reachable|].
  split; [by vm_compute|].
  split; [by vm_compute|].
  intros H.
  specialize (H table_after_encode 0 "cluster" table_after_encode_reachable).
  assert (1 ≤ 0) as Hle by (apply H; by vm_compute). lia.
Qed.

(** C3 (as the code has it). No id is reserved: [next_symbol_] starts at 0,
    so the first token interned into a fresh table receives id 0 and the
    table then stages id 1; in every table state reachable from a fresh
    table by [encode], [free] and [incRefCount], every id present in either
    map is at most [monotonic_counter_], which is below 2^32. *)
Theorem C3_ids_start_at_zero (tb : SymbolTable.t) :
  reachable tb →
  (∀ token,
     SymbolTable.toSymbol SymbolTable.init token
     = Some (SymbolTable.mk 1 1 {[token := SymbolTable.mkSharedSymbol 0 1]}
                            {[0 := token]} [], 0))
  ∧ (∀ id s, SymbolTable.decode_map_ tb !! id = Some s →
             id ≤ SymbolTable.monotonic_counter_ tb)
  ∧ (∀ s shared, SymbolTable.encode_map_ tb !! s = Some shared →
                 SymbolTable.symbol_ shared ≤ SymbolTable.monotonic_counter_ tb)
  ∧ SymbolTable.monotonic_counter_ tb < 2 ^ 32.
Proof.
  intros [Hbi Hids]%reachable_wf.
  split; [done|].
  split; [apply (ids_live_le tb Hids)|].
  split; [|apply (ids_counter tb Hids)].
  intros s shared Hs. eapply (ids_live_le tb Hids).
  by eapply bimap_decode_of.
Qed.

Lemma C3_ids_start_at_zero_witness :
  SymbolTable.decode_map_ table_after_encode !! 2 = Some "rq_total"
  ∧ 2 ≤ SymbolTable.monotonic_counter_ table_after_encode.
Proof.
  pose proof (C3_ids_start_at_zero table_after_encode
                table_after_encode_reachable) as (_ & H & _).
  split; [reflexivity|]. apply (H 2 "rq_total"). reflexivity.
Defined.




(** ** Splitting and joining on the separator *)

Section strings.

Lemma StrSplit_nonempty name delim : StrSplit name delim ≠ [].
Proof.
  destruct name as [|c name]; simpl; [done|].
  destruct (Ascii.eqb c delim); [done|]. by destruct (StrSplit name delim).
Qed.

Lemma StrJoin_cons p rest sep :
  rest ≠ [] → StrJoin (p :: rest) sep = p +:+ sep +:+ StrJoin rest sep.
Proof. by destruct rest. Qed.

Lemma string_app_nil (b : string) : EmptyString +:+ b = b.
Proof. reflexivity. Qed.

Lemma string_app_cons c (a b : string) : String c a +:+ b = String c (a +:+ b).
Proof. reflexivity. Qed.

Lemma string_app_assoc (a b c : string) : (a +:+ b) +:+ c = a +:+ (b +:+ c).
Proof.
  induction a as [|x a IH]; [done|]. rewrite !string_app_cons. by rewrite IH.
Qed.

Lemma StrJoin_StrSplit name delim :
  StrJoin (StrSplit name delim) (String delim EmptyString) = name.
Proof.
  induction name as [|c name IH]; simpl; [done|].
  destruct (Ascii.eqb_spec c delim) as [->|Hne].
  - rewrite StrJoin_cons by apply StrSplit_nonempty.
    by rewrite string_app_nil, string_app_cons, string_app_nil, IH.
  - pose proof (StrSplit_nonempty name delim) as Hn.
    destruct (StrSplit name delim) as [|tok toks]; [done|].
    rewrite <- IH. destruct toks; [done|].
    rewrite (StrJoin_cons (String c tok)), (StrJoin_cons tok) by done.
    by rewrite string_app_cons.
Qed.

Lemma StrJoin_app l1 l2 sep :
  l1 ≠ [] → l2 ≠ [] →
  StrJoin (l1 ++ l2) sep = StrJoin l1 sep +:+ sep +:+ StrJoin l2 sep.
Proof.
  intros H1 H2. induction l1 as [|p l1 IH]; [done|].
  destruct l1 as [|q l1].
  - simpl. by destruct l2.
  - change ((p :: q :: l1) ++ l2) with (p :: ((q :: l1) ++ l2)).
    rewrite StrJoin_cons by done. rewrite IH by done.
    rewrite (StrJoin_cons p (q :: l1)) by done. by rewrite !string_app_assoc.
Qed.

End strings.

(** ** Encoding and decoding names *)

Section round_trip.
Import SymbolTable.

Lemma live_ids_32bit tb ids (toks : list string) :
  ids_ok tb →
  Forall2 (λ id tok, decode_map_ tb !! id = Some tok) ids toks →
  Forall (λ s, s < 2 ^ 32) ids.
Proof.
  intros Hids. induction 1 as [|id tok ids toks Hid _ IH]; constructor; [|done].
  pose proof (ids_live_le tb Hids _ _ Hid). pose proof (ids_counter tb Hids). lia.
Qed.

Lemma decodeSymbolVec_live tb ids toks :
  Forall2 (λ id tok, decode_map_ tb !! id = Some tok) ids toks →
  decodeSymbolVec tb ids = Some (StrJoin toks ".").
Proof.
  intros HF. unfold decodeSymbolVec.
  by rewrite (mapM_Some_2 (fromSymbol tb) ids toks HF).
Qed.

(** What a successful [encode] returns: the encoding of ids that the
    returned table resolves to the pieces of the name. *)
Lemma encode_inv tb name tb' e :
  wf tb → encode tb name = Some (tb', e) →
  ∃ ids toks,
    e = foldl SymbolEncoding.addSymbol [] ids
    ∧ StrJoin toks "." = name
    ∧ (name ≠ EmptyString → toks = StrSplit name ".")
    ∧ (name = EmptyString → toks = [] ∧ tb' = tb)
    ∧ Forall2 (λ id tok, decode_map_ tb' !! id = Some tok) ids toks
    ∧ Forall (λ s, s < 2 ^ 32) ids
    ∧ wf tb'
    ∧ (∀ i s, decode_map_ tb !! i = Some s → decode_map_ tb' !! i = Some s).
Proof.
  intros Hwf. unfold encode. destruct name as [|c name].
  - intros [= <- <-]. exists [], [].
    do 4 (split; [done|]). do 2 (split; [constructor|]). by split.
  - destruct (toSymbols _ _) as [[tb1 symbols]|] eqn:H1; [|done]. simpl.
    intros [= <- <-].
    destruct (toSymbols_wf _ _ _ _ Hwf H1) as (Hwf1 & _ & HF & Hkeep).
    exists symbols, (StrSplit (String c name) ".").
    split; [done|]. split; [apply StrJoin_StrSplit|].
    split; [done|]. split; [done|]. split; [done|].
    split; [|done]. by eapply live_ids_32bit; [apply Hwf1|].
Qed.

Lemma encode_decode tb name tb' e :
  wf tb → encode tb name = Some (tb', e) →
  decode tb' e (SymbolEncoding.size e) = Some name.
Proof.
  intros Hwf He.
  destruct (encode_inv _ _ _ _ Hwf He)
    as (ids & toks & -> & Hjoin & _ & _ & HF & H32 & _).
  unfold decode. rewrite (decodeSymbols_encoding ids H32).
  by rewrite (decodeSymbolVec_live _ _ _ HF), Hjoin.
Qed.

Lemma encode_total tb name :
  wf tb →
  monotonic_counter_ tb + N.of_nat (length (StrSplit name ".")) < 2 ^ 32 →
  is_Some (encode tb name).
Proof.
  intros Hwf Hroom. unfold encode. destruct name as [|c name]; [done|].
  destruct (toSymbols_total _ _ Hwf Hroom) as [[tb1 symbols] ->]. done.
Qed.

(** A packed name made by [StatNameStorage] is the two length bytes
    followed by the encoding. *)
Lemma of_name_inv name tb tb' bytes_ :
  StatNameStorage.of_name name tb = Some (tb', bytes_) →
  ∃ e, encode tb name = Some (tb', e)
       ∧ SymbolEncoding.size e < StatNameMaxSize
       ∧ bytes_ = [N.land (SymbolEncoding.size e) 0xFF;
                   N.shiftr (SymbolEncoding.size e) 8] ++ e.
Proof.
  unfold StatNameStorage.of_name.
  destruct (encode tb name) as [[tb1 e]|] eqn:He; [|done]. simpl.
  destruct (N.lt_ge_cases (SymbolEncoding.size e) StatNameMaxSize) as [Hlt|Hge].
  - rewrite (moveToStorage_ok e Hlt). simpl. intros [= <- <-]. by exists e.
  - by rewrite (moveToStorage_too_long e Hge).
Qed.

Lemma toString_packed tb e :
  StatName_toString
    ([N.land (SymbolEncoding.size e) 0xFF; N.shiftr (SymbolEncoding.size e) 8] ++ e)
    tb
  = decode tb e (SymbolEncoding.size e).
Proof.
  unfold StatName_toString. by rewrite dataSize_prefix, data_prefix.
Qed.

End round_trip.

Section encoding_size.
Import SymbolEncoding.

Lemma base128_length s bytes :
  base128 s bytes →
  ∀ k : nat, s < 2 ^ (7 * N.of_nat (S k)) → (length bytes ≤ S k)%nat.
Proof.
  induction 1 as [s Hs|s bytes Hs _ IH]; intros k Hk; simpl; [lia|].
  destruct k as [|k]; [change (2 ^ (7 * N.of_nat 1)) with 128 in Hk; lia|].
  apply le_n_S, IH. rewrite N.shiftr_div_pow2.
  apply N.Div0.div_lt_upper_bound. rewrite <- N.pow_add_r.
  replace (7 + 7 * N.of_nat (S k)) with (7 * N.of_nat (S (S k))) by lia. done.
Qed.

Lemma encoding_size_bound ids :
  Forall (λ s, s < 2 ^ 32) ids →
  size (foldl addSymbol [] ids) ≤ 5 * N.of_nat (length ids).
Proof.
  intros Hids. rewrite (foldl_addSymbol ids _ [] (base128_chunks ids)). simpl.
  unfold size. induction Hids as [|s ids Hs _ IH]; simpl; [done|].
  rewrite length_app.
  pose proof (base128_length s _ (base128_addSymbol s) 4%nat) as Hlen.
  assert (s < 2 ^ (7 * N.of_nat 5)) as H35.
  { eapply N.lt_trans; [exact Hs|]. reflexivity. }
  specialize (Hlen H35). lia.
Qed.

End encoding_size.

(** C1. Round trip through the table: for every name, the empty one
    included, and every reachable table, the packed name that
    [StatNameStorage] builds from [encode] renders back, against the table
    [encode] left behind, to exactly that name; so does the bare encoding
    under [decode].  The constructor does return a packed name whenever the
    counter has room for the pieces of the name and the payload fits the
    two length bytes. *)
Theorem C1_round_trip (tb : SymbolTable.t) (name : string) :
  reachable tb →
  (∀ tb' bytes_,
     StatNameStorage.of_name name tb = Some (tb', bytes_) →
     StatName_toString (StatNameStorage.statName bytes_) tb' = Some name)
  ∧ (∀ tb' e,
       SymbolTable.encode tb name = Some (tb', e) →
       SymbolTable.decode tb' e (SymbolEncoding.size e) = Some name)
  ∧ (SymbolTable.monotonic_counter_ tb + N.of_nat (length (StrSplit name "."))
       < 2 ^ 32 →
     5 * N.of_nat (length (StrSplit name ".")) < StatNameMaxSize →
     is_Some (StatNameStorage.of_name name tb)).
Proof.
  intros Hwf%reachable_wf. split; [|split].
  - intros tb' bytes_ (e & He & _ & ->)%of_name_inv.
    unfold StatNameStorage.statName. rewrite toString_packed.
    by eapply encode_decode.
  - intros tb' e He. by eapply encode_decode.
  - intros Hroom Hfit.
    destruct (encode_total tb name Hwf Hroom) as [[tb' e] He].
    unfold StatNameStorage.of_name. rewrite He. simpl.
    destruct (encode_inv _ _ _ _ Hwf He)
      as (ids & toks & -> & _ & Hne & Hemp & HF & H32 & _).
    pose proof (encoding_size_bound ids H32) as Hsz.
    assert (length ids ≤ length (StrSplit name "."))%nat as Hlen.
    { rewrite (Forall2_length _ _ _ HF). destruct name as [|c name].
      - destruct Hemp as [-> _]; [done|]. simpl. lia.
      - by rewrite Hne. }
    rewrite moveToStorage_ok by lia. done.
Qed.

Lemma C1_round_trip_witness :
  StatNameStorage.of_name "cluster.x.rq_total" SymbolTable.init
    = Some (table_after_encode, [3; 0; 0; 1; 2])
  ∧ StatName_toString [3; 0; 0; 1; 2] table_after_encode
    = Some "cluster.x.rq_total".
Proof.
  pose proof (C1_round_trip SymbolTable.init "cluster.x.rq_total" reachable_init)
    as (H & _ & _).
  assert (StatNameStorage.of_name "cluster.x.rq_total" SymbolTable.init
          = Some (table_after_encode, [3; 0; 0; 1; 2])) as Hrun
    by (vm_compute; reflexivity).
  split; [exact Hrun|]. exact (H _ _ Hrun).
Defined.

(** ** Equality of packed names *)

Section injectivity.
Import SymbolTable.

Lemma eqb_packed e1 e2 :
  SymbolEncoding.size e1 < StatNameMaxSize →
  SymbolEncoding.size e2 < StatNameMaxSize →
  StatName.eqb
    ([N.land (SymbolEncoding.size e1) 0xFF; N.shiftr (SymbolEncoding.size e1) 8]
       ++ e1)
    ([N.land (SymbolEncoding.size e2) 0xFF; N.shiftr (SymbolEncoding.size e2) 8]
       ++ e2)
  = true ↔ e1 = e2.
Proof.
  intros H1 H2. unfold StatName.eqb.
  rewrite !dataSize_prefix, !data_prefix.
  rewrite andb_true_iff, N.eqb_eq, bool_decide_eq_true.
  unfold SymbolEncoding.size. rewrite Nat2N.id, firstn_all. split.
  - intros [Hlen Htake]. apply Nat2N.inj in Hlen.
    by rewrite Hlen, firstn_all in Htake.
  - intros <-. by rewrite firstn_all.
Qed.

Lemma live_ids_unique tb ids1 ids2 (toks : list string) :
  bimap tb →
  Forall2 (λ id tok, decode_map_ tb !! id = Some tok) ids1 toks →
  Forall2 (λ id tok, decode_map_ tb !! id = Some tok) ids2 toks →
  ids1 = ids2.
Proof.
  intros [Hinv _] H1. revert ids2.
  induction H1 as [|i tok ids1 toks Hi _ IH]; intros ids2 H2.
  - by apply Forall2_nil_inv_r in H2.
  - apply Forall2_cons_inv_r in H2 as (j & ids2' & Hj & H2 & ->).
    f_equal; [|by apply IH].
    apply Hinv in Hi as [rc1 Hi]. apply Hinv in Hj as [rc2 Hj].
    rewrite Hi in Hj. by injection Hj.
Qed.

End injectivity.

(** C7. Encoding injectivity: two names encoded one after the other against
    the same table yield packed names that [operator==] finds equal exactly
    when the names are the same string. *)
Theorem C7_encode_injective (tb tb1 tb2 : SymbolTable.t) (s1 s2 : string)
    (p1 p2 : list N) :
  reachable tb →
  StatNameStorage.of_name s1 tb = Some (tb1, p1) →
  StatNameStorage.of_name s2 tb1 = Some (tb2, p2) →
  StatName.eqb (StatNameStorage.statName p1) (StatNameStorage.statName p2) = true
  ↔ s1 = s2.
Proof.
  intros Hwf%reachable_wf (e1 & He1 & Hsz1 & ->)%of_name_inv
         (e2 & He2 & Hsz2 & ->)%of_name_inv.
  unfold StatNameStorage.statName. rewrite (eqb_packed e1 e2 Hsz1 Hsz2).
  destruct (encode_inv _ _ _ _ Hwf He1)
    as (ids1 & toks1 & -> & Hj1 & Hne1 & Hemp1 & HF1 & H32_1 & Hwf1 & _).
  destruct (encode_inv _ _ _ _ Hwf1 He2)
    as (ids2 & toks2 & -> & Hj2 & Hne2 & Hemp2 & HF2 & H32_2 & Hwf2 & Hkeep).
  assert (Forall2 (λ id tok, SymbolTable.decode_map_ tb2 !! id = Some tok)
                  ids1 toks1) as HF1'.
  { eapply Forall2_impl; [exact HF1|]. intros i tok. apply Hkeep. }
  split.
  - intros Heq.
    assert (ids1 = ids2) as ->.
    { rewrite <- (decodeSymbols_encoding ids1 H32_1),
              <- (decodeSymbols_encoding ids2 H32_2). by rewrite Heq. }
    pose proof (decodeSymbolVec_live _ _ _ HF1') as D1.
    pose proof (decodeSymbolVec_live _ _ _ HF2) as D2.
    rewrite D1 in D2. injection D2 as D2. by rewrite <- Hj1, <- Hj2.
  - intros <-.
    assert (toks1 = toks2) as <-.
    { destruct s1 as [|c s1].
      - destruct Hemp1 as [-> _]; [done|]. by destruct Hemp2 as [-> _].
      - by rewrite Hne1, Hne2. }
    f_equal. apply (live_ids_unique tb2 ids1 ids2 toks1); [apply Hwf2|done|done].
Qed.

Lemma C7_encode_injective_witness :
  StatName.eqb [3; 0; 0; 1; 2] [3; 0; 0; 3; 2] = true
  ↔ "cluster.x.rq_total" = "cluster.y.rq_total".
Proof.
  apply (C7_encode_injective SymbolTable.init table_after_encode
           (SymbolTable.mk 4 4
              (<["y" := SymbolTable.mkSharedSymbol 3 1]>
                 (<["cluster" := SymbolTable.mkSharedSymbol 0 2]>
                    (<["rq_total" := SymbolTable.mkSharedSymbol 2 2]>
                       (SymbolTable.encode_map_ table_after_encode))))
              (<[3 := "y"]> (SymbolTable.decode_map_ table_after_encode)) [])
           "cluster.x.rq_total" "cluster.y.rq_total").
  - apply reachable_init.
  - vm_compute. reflexivity.
  - vm_compute. reflexivity.
Defined.

(** ** Releasing what an encode acquired *)

Section encode_free.
Import SymbolTable.

Lemma u32_pred rc : 1 ≤ rc → rc < 2 ^ 32 → u32 (rc + (2 ^ 32 - 1)) = rc - 1.
Proof.
  intros H1 H2. unfold u32.
  replace (rc + (2 ^ 32 - 1)) with ((rc - 1) + 1 * 2 ^ 32) by lia.
  rewrite N.Div0.mod_add. apply N.mod_small. lia.
Qed.

Lemma toSymbols_app l1 : ∀ l2 tb,
  toSymbols tb (l1 ++ l2)
  = '(tb1, ids1) ← toSymbols tb l1;
    '(tb2, ids2) ← toSymbols tb1 l2;
    Some (tb2, ids1 ++ ids2).
Proof.
  induction l1 as [|t l1 IH]; intros l2 tb; simpl.
  - by destruct (toSymbols tb l2) as [[? ?]|].
  - destruct (toSymbol tb t) as [[tb1 i]|]; [|done]. simpl.
    rewrite IH. destruct (toSymbols tb1 l1) as [[tb2 ids1]|]; [|done]. simpl.
    by destruct (toSymbols tb2 l2) as [[? ?]|].
Qed.

Lemma for_each_app body l1 : ∀ l2 tb,
  for_each body tb (l1 ++ l2) = tb1 ← for_each body tb l1; for_each body tb1 l2.
Proof.
  induction l1 as [|s l1 IH]; intros l2 tb; simpl; [done|].
  destruct (body tb s); [|done]. simpl. apply IH.
Qed.

Lemma free_symbol_bimap tb j tb' :
  bimap tb → free_symbol tb j = Some tb' → bimap tb'.
Proof.
  intros Hbi. unfold free_symbol.
  destruct (decode_map_ tb !! j) as [str|] eqn:Hj; [|done]. simpl.
  destruct (encode_map_ tb !! str) as [shared|] eqn:Hstr; [|done]. simpl.
  case_match; intros [= <-]; unfold bimap; simpl.
  - by eapply bimap_erase.
  - by apply bimap_set_ref_count.
Qed.

(** Interning a token adds one reference to it. *)
Lemma toSymbol_extra tb t tb' i :
  toSymbol tb t = Some (tb', i) →
  (∀ shared, encode_map_ tb !! t = Some shared →
             1 ≤ ref_count_ shared ∧ ref_count_ shared + 1 < 2 ^ 32) →
  extra_ref t i tb' tb.
Proof.
  unfold toSymbol. intros Hrun Hrc.
  destruct (encode_map_ tb !! t) as [[id rc]|] eqn:Ht.
  - injection Hrun as <- <-. destruct (Hrc _ eq_refl) as [H1 H2]. simpl in *.
    apply (extra_bump _ _ _ _ rc); simpl; [done|done|done| |done].
    unfold u32. by rewrite N.mod_small.
  - destruct (decode_map_ tb !! next_symbol_ tb) eqn:Hn; [done|].
    destruct (newSymbol _) as [tb1|] eqn:Hnew; [|done].
    simpl in Hrun. injection Hrun as <- <-.
    apply newSymbol_maps in Hnew as [Hem Hdm]. simpl in Hem, Hdm.
    by apply extra_new.
Qed.

(** Releasing an id in both tables keeps them one reference apart. *)
Lemma free_symbol_sim t i A B j B' :
  bimap B → extra_ref t i A B →
  free_symbol B j = Some B' →
  ∃ A', free_symbol A j = Some A' ∧ extra_ref t i A' B'.
Proof.
  intros Hbi Hx. unfold free_symbol.
  destruct (decode_map_ B !! j) as [str|] eqn:Hj; [|done]. simpl.
  destruct (encode_map_ B !! str) as [[id rc0]|] eqn:Hstr; [|done]. simpl.
  destruct Hx as [Ht Hi HemA HdmA|rc Ht Hrc1 Hrc2 HemA HdmA].
  - (* [t] is not in [B]: the released entry is another one *)
    assert (str ≠ t) as Hst by congruence.
    assert (j ≠ i) as Hji by congruence.
    rewrite HdmA, lookup_insert_ne, Hj by done. simpl.
    rewrite HemA, lookup_insert_ne, Hstr by done. simpl.
    case_match; intros [= <-]; eexists; (split; [done|]).
    + apply extra_new; simpl.
      * by rewrite lookup_delete_ne.
      * by rewrite lookup_delete_ne.
      * by rewrite delete_insert_ne.
      * by rewrite delete_insert_ne.
    + apply extra_new; simpl.
      * by rewrite lookup_insert_ne.
      * done.
      * by rewrite insert_insert_ne.
      * done.
  - rewrite HdmA, Hj. simpl.
    destruct (decide (str = t)) as [->|Hst].
    + (* the released entry is the one of [t] *)
      rewrite Hstr in Ht. injection Ht as -> ->.
      assert (j = i) as -> by (by eapply (bimap_symbol_of _ _ j t) in Hstr).
      rewrite HemA, lookup_insert_eq. simpl.
      rewrite (u32_pred (rc + 1)) by lia. rewrite (u32_pred rc) by lia.
      replace (rc + 1 - 1) with rc by lia.
      destruct (N.eqb_spec rc 0) as [|_]; [lia|].
      destruct (N.eqb_spec (rc - 1) 0) as [Hz|Hnz]; intros [= <-];
        eexists; (split; [done|]).
      * replace rc with 1 by lia. apply extra_new; simpl.
        -- apply lookup_delete_eq.
        -- apply lookup_delete_eq.
        -- by rewrite insert_insert_eq, insert_delete_eq.
        -- by rewrite insert_delete_eq, insert_id.
      * apply (extra_bump _ _ _ _ (rc - 1)); simpl.
        -- apply lookup_insert_eq.
        -- lia.
        -- lia.
        -- rewrite !insert_insert_eq. by replace (rc - 1 + 1) with rc by lia.
        -- done.
    + assert (j ≠ i) as Hji.
      { intros ->. apply Hst.
        pose proof (bimap_decode_of _ _ _ _ Hbi Ht) as Hd. simpl in Hd.
        congruence. }
      rewrite HemA, lookup_insert_ne, Hstr by done. simpl.
      case_match; intros [= <-]; eexists; (split; [done|]).
      * apply (extra_bump _ _ _ _ rc); simpl.
        -- by rewrite lookup_delete_ne.
        -- done.
        -- done.
        -- by rewrite delete_insert_ne.
        -- done.
      * apply (extra_bump _ _ _ _ rc); simpl.
        -- by rewrite lookup_insert_ne.
        -- done.
        -- done.
        -- by rewrite insert_insert_ne.
        -- done.
Qed.

Lemma for_each_free_sim t i ids : ∀ A B B',
  bimap B → extra_ref t i A B →
  for_each free_symbol B ids = Some B' →
  ∃ A', for_each free_symbol A ids = Some A' ∧ extra_ref t i A' B' ∧ bimap B'.
Proof.
  induction ids as [|j ids IH]; intros A B B' Hbi Hx; simpl.
  - intros [= <-]. eauto.
  - destruct (free_symbol B j) as [B1|] eqn:HB; [|done]. simpl. intros Hrest.
    destruct (free_symbol_sim _ _ _ _ _ _ Hbi Hx HB) as (A1 & -> & Hx1). simpl.
    eapply IH; [|exact Hx1|exact Hrest]. by eapply free_symbol_bimap.
Qed.

(** Releasing the extra reference brings back the maps. *)
Lemma free_symbol_extra t i A B :
  bimap B → extra_ref t i A B →
  ∃ A', free_symbol A i = Some A'
        ∧ encode_map_ A' = encode_map_ B ∧ decode_map_ A' = decode_map_ B.
Proof.
  intros Hbi [Ht Hi HemA HdmA|rc Ht Hrc1 Hrc2 HemA HdmA]; unfold free_symbol.
  - rewrite HdmA, lookup_insert_eq. simpl.
    rewrite HemA, lookup_insert_eq. simpl.
    eexists. split; [done|]. simpl.
    by rewrite !delete_insert_id.
  - pose proof (bimap_decode_of _ _ _ _ Hbi Ht) as Hd. simpl in Hd.
    rewrite HdmA, Hd. simpl. rewrite HemA, lookup_insert_eq. simpl.
    rewrite (u32_pred (rc + 1)) by lia. replace (rc + 1 - 1) with rc by lia.
    destruct (N.eqb_spec rc 0) as [|_]; [lia|].
    eexists. split; [done|]. simpl.
    by rewrite insert_insert_eq, insert_id.
Qed.

Lemma toSymbol_rc_bounded toks k tb t tb' i :
  rc_bounded toks k tb → k + 1 < 2 ^ 32 →
  toSymbol tb t = Some (tb', i) →
  rc_bounded toks (k + 1) tb'.
Proof.
  intros Hrc Hk. unfold toSymbol.
  destruct (encode_map_ tb !! t) as [[id rc]|] eqn:Ht.
  - intros [= <- <-] tok shared Htok. simpl.
    destruct (decide (t = tok)) as [->|Hne].
    + rewrite lookup_insert_eq. intros [= <-]. simpl.
      destruct (Hrc _ _ Htok Ht) as [H1 H2]. simpl in *.
      unfold u32. rewrite N.mod_small by lia. lia.
    + rewrite lookup_insert_ne by done. intros Hs.
      destruct (Hrc _ _ Htok Hs). lia.
  - destruct (decode_map_ tb !! next_symbol_ tb); [done|].
    destruct (newSymbol _) as [tb1|] eqn:Hnew; [|done].
    simpl. intros [= <- <-] tok shared Htok.
    apply newSymbol_maps in Hnew as [-> _]. simpl.
    destruct (decide (t = tok)) as [->|Hne].
    + rewrite lookup_insert_eq. intros [= <-]. simpl. lia.
    + rewrite lookup_insert_ne by done. intros Hs.
      destruct (Hrc _ _ Htok Hs). lia.
Qed.

(** Releasing, in order, the ids that interning a list of tokens returned
    brings both maps back, provided no reference count of those tokens
    wraps on the way. *)
Lemma toSymbols_free toks l : ∀ tb tb' ids k,
  bimap tb → rc_bounded toks k tb →
  (∀ t, t ∈ l → t ∈ toks) →
  k + N.of_nat (length l) < 2 ^ 32 →
  toSymbols tb l = Some (tb', ids) →
  bimap tb'
  ∧ rc_bounded toks (k + N.of_nat (length l)) tb'
  ∧ ∃ tb'', for_each free_symbol tb' ids = Some tb''
            ∧ encode_map_ tb'' = encode_map_ tb
            ∧ decode_map_ tb'' = decode_map_ tb.
Proof.
  induction l as [|t l IH] using rev_ind; intros tb tb' ids k Hbi Hrc Hin Hk.
  - simpl. intros [= <- <-]. rewrite N.add_0_r.
    split; [done|]. split; [done|]. by exists tb.
  - rewrite toSymbols_app. rewrite length_app in Hk. simpl in Hk.
    destruct (toSymbols tb l) as [[tb1 ids1]|] eqn:H1; [|done]. simpl.
    destruct (toSymbol tb1 t) as [[tb2 i]|] eqn:H2; [|done]. simpl.
    intros [= <- <-].
    destruct (IH tb tb1 ids1 k Hbi Hrc) as (Hbi1 & Hrc1 & F1 & HF1 & Hem1 & Hdm1);
      [intros x Hx; apply Hin, elem_of_app; by left|lia|done|].
    assert (t ∈ toks) as Ht by (apply Hin, elem_of_app; right; by left).
    pose proof (toSymbol_rc_bounded _ _ _ _ _ _ Hrc1 ltac:(lia) H2) as Hrc2.
    destruct (toSymbol_bimap _ _ _ _ Hbi1 H2) as (Hbi2 & _).
    split; [done|]. split.
    { rewrite length_app. simpl.
      by replace (k + N.of_nat (length l + 1)) with (k + N.of_nat (length l) + 1)
        by lia. }
    assert (extra_ref t i tb2 tb1) as Hx.
    { apply toSymbol_extra; [done|]. intros shared Hs.
      destruct (Hrc1 _ _ Ht Hs). lia. }
    destruct (for_each_free_sim _ _ _ _ _ _ Hbi1 Hx HF1) as (A1 & HA1 & Hx1 & HbiF).
    destruct (free_symbol_extra _ _ _ _ HbiF Hx1) as (A2 & HA2 & HemA & HdmA).
    exists A2. rewrite for_each_app, HA1. simpl. rewrite HA2. simpl.
    split; [done|]. split; congruence.
Qed.

Lemma encoding_size_ge ids :
  N.of_nat (length ids) ≤ SymbolEncoding.size (foldl SymbolEncoding.addSymbol [] ids).
Proof.
  rewrite (foldl_addSymbol ids _ [] (base128_chunks ids)). simpl.
  unfold SymbolEncoding.size. induction ids as [|s ids IH]; simpl; [done|].
  rewrite length_app.
  pose proof (base128_nonempty _ _ (base128_addSymbol s)) as Hne.
  destruct (SymbolEncoding.addSymbol [] s); [done|]. simpl. lia.
Qed.

End encode_free.

(** C8. Encode/free inverse on the maps: when no piece of the name is in
    the table, building the packed name and then releasing it succeeds and
    leaves both maps, and with them [numSymbols], exactly as they were
    before the encode. *)
Theorem C8_encode_free_restores (tb tb' : SymbolTable.t) (name : string)
    (bytes_ : list N) :
  reachable tb →
  Forall (λ token, SymbolTable.encode_map_ tb !! token = None)
         (StrSplit name ".") →
  StatNameStorage.of_name name tb = Some (tb', bytes_) →
  ∃ tb'',
    StatNameStorage.free bytes_ tb' = Some tb''
    ∧ SymbolTable.encode_map_ tb'' = SymbolTable.encode_map_ tb
    ∧ SymbolTable.decode_map_ tb'' = SymbolTable.decode_map_ tb
    ∧ SymbolTable.numSymbols tb'' = SymbolTable.numSymbols tb.
Proof.
  intros Hwf%reachable_wf Habsent (e & He & Hsz & ->)%of_name_inv.
  unfold StatNameStorage.free, StatNameStorage.statName, SymbolTable.free.
  rewrite dataSize_prefix, data_prefix.
  assert (∀ tb'', SymbolTable.encode_map_ tb'' = SymbolTable.encode_map_ tb →
                  SymbolTable.decode_map_ tb'' = SymbolTable.decode_map_ tb →
                  SymbolTable.numSymbols tb'' = SymbolTable.numSymbols tb) as Hnum.
  { intros tb'' Hem Hdm. unfold SymbolTable.numSymbols. by rewrite Hem, Hdm. }
  destruct (encode_inv _ _ _ _ Hwf He)
    as (ids & toks & -> & _ & _ & _ & _ & H32 & _).
  rewrite (decodeSymbols_encoding ids H32).
  unfold SymbolTable.encode in He. destruct name as [|c name].
  - injection He as <- He. destruct ids as [|i ids].
    + exists tb. simpl. auto.
    + exfalso. pose proof (base128_nonempty _ _ (base128_addSymbol i)) as Hne.
      simpl in He. symmetry in He.
      rewrite (foldl_addSymbol ids _ _ (base128_chunks ids)) in He.
      apply app_eq_nil in He as [He _]. done.
  - destruct (SymbolTable.toSymbols _ _) as [[tb1 symbols]|] eqn:H1; [|done].
    simpl in He. injection He as <- He.
    assert (symbols = ids) as ->.
    { destruct (toSymbols_wf _ _ _ _ Hwf H1) as (Hwf1 & _ & HF & _).
      rewrite <- (decodeSymbols_encoding symbols), He.
      - by apply decodeSymbols_encoding.
      - by eapply live_ids_32bit; [apply Hwf1|]. }
    pose proof (encoding_size_ge ids) as Hge.
    pose proof (toSymbols_wf _ _ _ _ Hwf H1) as (_ & _ & HF & _).
    apply Forall2_length in HF.
    destruct (toSymbols_free (StrSplit (String c name) ".")
                (StrSplit (String c name) ".") tb tb1 ids 0)
      as (_ & _ & tb'' & Hfree & Hem & Hdm); try done.
    + apply Hwf.
    + intros tok shared Htok Hs.
      rewrite Forall_forall in Habsent. by rewrite (Habsent _ Htok) in Hs.
    + change StatNameMaxSize with 65536 in Hsz. rewrite <- HF.
      assert (65536 < 2 ^ 32) by done. lia.
    + exists tb''. auto.
Qed.

Lemma C8_encode_free_restores_witness :
  ∃ tb'',
    StatNameStorage.free [3; 0; 0; 1; 2] table_after_encode = Some tb''
    ∧ SymbolTable.encode_map_ tb'' = ∅
    ∧ SymbolTable.decode_map_ tb'' = ∅
    ∧ SymbolTable.numSymbols tb'' = Some 0.
Proof.
  apply (C8_encode_free_restores SymbolTable.init table_after_encode
           "cluster.x.rq_total" [3; 0; 0; 1; 2]).
  - apply reachable_init.
  - repeat constructor.
  - vm_compute. reflexivity.
Defined.

(** C4, refuted as stated: the two bytes [0x00 0x81] end in a byte whose
    continuation bit is set, yet [decodeSymbols] returns the one complete id
    and [SymbolTable::decode] renders it, with no error. *)
Lemma C4_counterexample :
  N.land 0x81 SpilloverMask ≠ 0
  ∧ SymbolEncoding.decodeSymbols [0x00; 0x81] 2 = [0]
  ∧ SymbolTable.decode table_after_encode [0x00; 0x81] 2 = Some "cluster".
Proof.
  split; [by vm_compute|]. split; by vm_compute.
Qed.

(** ** Joining packed names *)

Section join.
Import SymbolTable.

Lemma packed_name_inv symbols p :
  packed_name symbols = Some p →
  SymbolEncoding.size (foldl SymbolEncoding.addSymbol [] symbols) < StatNameMaxSize
  ∧ p = [N.land (SymbolEncoding.size (foldl SymbolEncoding.addSymbol [] symbols))
                0xFF;
         N.shiftr (SymbolEncoding.size (foldl SymbolEncoding.addSymbol [] symbols))
                  8]
          ++ foldl SymbolEncoding.addSymbol [] symbols.
Proof.
  unfold packed_name. set (e := foldl SymbolEncoding.addSymbol [] symbols).
  intros Hp.
  destruct (N.lt_ge_cases (SymbolEncoding.size e) StatNameMaxSize) as [Hlt|Hge].
  - rewrite (moveToStorage_ok e Hlt) in Hp. simpl in Hp. by injection Hp as <-.
  - by rewrite (moveToStorage_too_long e Hge) in Hp.
Qed.

Lemma foldl_addSymbol_app l1 l2 :
  foldl SymbolEncoding.addSymbol [] (l1 ++ l2)
  = foldl SymbolEncoding.addSymbol [] l1 ++ foldl SymbolEncoding.addSymbol [] l2.
Proof.
  rewrite foldl_app.
  rewrite (foldl_addSymbol l2 _ _ (base128_chunks l2)).
  by rewrite (foldl_addSymbol l2 _ [] (base128_chunks l2)).
Qed.

Lemma live_tokens tb ids :
  Forall (λ s, is_Some (fromSymbol tb s)) ids →
  ∃ toks, Forall2 (λ id tok, decode_map_ tb !! id = Some tok) ids toks.
Proof.
  induction 1 as [|s ids [tok Hs] _ [toks IH]].
  - exists []. constructor.
  - exists (tok :: toks). by constructor.
Qed.

Lemma take_size e : take (N.to_nat (SymbolEncoding.size e)) e = e.
Proof. unfold SymbolEncoding.size. by rewrite Nat2N.id, firstn_all. Qed.

Lemma size_app e1 e2 :
  SymbolEncoding.size (e1 ++ e2) = SymbolEncoding.size e1 + SymbolEncoding.size e2.
Proof. unfold SymbolEncoding.size. rewrite length_app. lia. Qed.

End join.

(** C9. Join correctness: for two non-empty packed names whose ids are live
    in a reachable table, the name [StatNameJoiner] builds renders, against
    that table, to the rendering of the first, a dot, and the rendering of
    the second.  The constructor asserts that the two payloads together stay
    below [StatNameMaxSize], and returns a name whenever they do.  It takes
    no table and returns none: the table in which the three names are
    rendered is the one and the same [tb]. *)
Theorem C9_join_decodes (tb : SymbolTable.t) (sa sb : list N) (a b : list N) :
  reachable tb →
  sa ≠ [] → sb ≠ [] →
  packed_name sa = Some a → packed_name sb = Some b →
  Forall (λ s, is_Some (SymbolTable.fromSymbol tb s)) (sa ++ sb) →
  (StatName.dataSize a + StatName.dataSize b < StatNameMaxSize →
   is_Some (StatNameJoiner.join a b))
  ∧ ∀ j, StatNameJoiner.join a b = Some j →
         ∃ da db,
           StatName_toString a tb = Some da
           ∧ StatName_toString b tb = Some db
           ∧ StatName_toString (StatNameJoiner.statName j) tb
             = Some (da +:+ "." +:+ db).
Proof.
  intros [_ Hids]%reachable_wf Ha Hb [Hsza ->]%packed_name_inv
         [Hszb ->]%packed_name_inv [Hla Hlb]%Forall_app.
  set (ea := foldl SymbolEncoding.addSymbol [] sa) in *.
  set (eb := foldl SymbolEncoding.addSymbol [] sb) in *.
  unfold StatNameJoiner.join, StatNameJoiner.alloc, StatNameJoiner.statName.
  rewrite !dataSize_prefix, !data_prefix, !take_size.
  split.
  - intros Hfit. by rewrite (saveLength_ok _ Hfit).
  - intros j Hj.
    destruct (N.lt_ge_cases (SymbolEncoding.size ea + SymbolEncoding.size eb)
                            StatNameMaxSize) as [Hfit|Hbig];
      [|by rewrite (saveLength_too_long _ Hbig) in Hj].
    rewrite (saveLength_ok _ Hfit) in Hj. simpl in Hj. injection Hj as <-.
    destruct (live_tokens _ _ Hla) as [ta HFa].
    destruct (live_tokens _ _ Hlb) as [tb' HFb].
    exists (StrJoin ta "."), (StrJoin tb' ".").
    pose proof (live_ids_32bit _ _ _ Hids HFa) as H32a.
    pose proof (live_ids_32bit _ _ _ Hids HFb) as H32b.
    rewrite !toString_packed. unfold SymbolTable.decode.
    subst ea eb. rewrite !decodeSymbols_encoding by done.
    split; [by apply decodeSymbolVec_live|].
    split; [by apply decodeSymbolVec_live|].
    rewrite <- size_app, <- foldl_addSymbol_app.
    change (?x :: ?y :: foldl SymbolEncoding.addSymbol [] (sa ++ sb))
      with ([x; y] ++ foldl SymbolEncoding.addSymbol [] (sa ++ sb)).
    rewrite toString_packed. unfold SymbolTable.decode.
    rewrite decodeSymbols_encoding by (by apply Forall_app).
    rewrite (decodeSymbolVec_live _ _ (ta ++ tb')) by (by apply Forall2_app).
    rewrite StrJoin_app; [done| |].
    + intros ->. apply Forall2_nil_inv_r in HFa. done.
    + intros ->. apply Forall2_nil_inv_r in HFb. done.
Qed.

Lemma C9_join_decodes_witness :
  StatNameJoiner.join [2; 0; 0; 1] [1; 0; 2] = Some [3; 0; 0; 1; 2]
  ∧ ∃ da db,
      StatName_toString [2; 0; 0; 1] table_two_names = Some da
      ∧ StatName_toString [1; 0; 2] table_two_names = Some db
      ∧ StatName_toString [3; 0; 0; 1; 2] table_two_names
        = Some (da +:+ "." +:+ db).
Proof.
  split; [reflexivity|].
  apply (C9_join_decodes table_two_names [0; 1] [2] [2; 0; 0; 1] [1; 0; 2]).
  - eapply reachable_step.
    + eapply reachable_step; [apply reachable_init|].
      apply (step_encode SymbolTable.init "a.b"
               (SymbolTable.mk 2 2
                  (<["a" := SymbolTable.mkSharedSymbol 0 1]>
                     {["b" := SymbolTable.mkSharedSymbol 1 1]})
                  (<[0 := "a"]> {[1 := "b"]}) []) [0; 1]).
      vm_compute. reflexivity.
    + apply (step_encode _ "a.c" _ [0; 2]). vm_compute. reflexivity.
  - discriminate.
  - discriminate.
  - reflexivity.
  - reflexivity.
  - repeat constructor; vm_compute; eexists; reflexivity.
  - reflexivity.
Defined.

(** ** Ordering packed names *)

Section less_than.
Import SymbolTable.

Lemma lessThan_loop_equal tb av bv todo : ∀ i,
  (∀ j, (i ≤ j < i + todo)%nat → av !!! j = bv !!! j) →
  lessThan_loop tb av bv i todo
  = Some (N.of_nat (length av) <? N.of_nat (length bv)).
Proof.
  induction todo as [|todo IH]; intros i Heq; simpl; [done|].
  case_decide as Hi.
  - apply IH. intros j Hj. apply Heq. lia.
  - destruct Hi. apply Heq. lia.
Qed.

Lemma lessThan_loop_differ tb av bv todo : ∀ i k,
  (i ≤ k < i + todo)%nat →
  (∀ j, (i ≤ j < k)%nat → av !!! j = bv !!! j) →
  av !!! k ≠ bv !!! k →
  lessThan_loop tb av bv i todo
  = (sa ← fromSymbol tb (av !!! k);
     sb ← fromSymbol tb (bv !!! k);
     Some (String.ltb sa sb)).
Proof.
  induction todo as [|todo IH]; intros i k Hk Heq Hne; simpl; [lia|].
  case_decide as Hi.
  - destruct (decide (i = k)) as [->|Hik]; [done|].
    apply IH; [lia| |done]. intros j Hj. apply Heq. lia.
  - destruct (decide (i = k)) as [->|Hik]; [done|].
    destruct Hi. apply Heq. lia.
Qed.

End less_than.

Section less_than_positions.
Import SymbolTable.

(** What [lessThan] returns, read off the two id vectors its loop runs
    over. *)
Lemma lessThan_loop_positions tb (av bv : list N) :
  (∀ i x y sx sy,
     av !! i = Some x → bv !! i = Some y → x ≠ y →
     (∀ j, (j < i)%nat → av !! j = bv !! j) →
     fromSymbol tb x = Some sx → fromSymbol tb y = Some sy →
     lessThan_loop tb av bv 0 (min (length av) (length bv))
     = Some (String.ltb sx sy))
  ∧ ((∀ i x y, av !! i = Some x → bv !! i = Some y → x = y) →
     lessThan_loop tb av bv 0 (min (length av) (length bv))
     = Some (bool_decide (length av < length bv)%nat)).
Proof.
  split.
  - intros i x y sx sy Hx Hy Hne Hbefore Hsx Hsy.
    pose proof (lookup_lt_Some _ _ _ Hx). pose proof (lookup_lt_Some _ _ _ Hy).
    rewrite (lessThan_loop_differ tb av bv _ 0 i).
    + rewrite (list_lookup_total_correct _ _ _ Hx),
              (list_lookup_total_correct _ _ _ Hy), Hsx. simpl. by rewrite Hsy.
    + lia.
    + intros j Hj.
      destruct (lookup_lt_is_Some_2 av j) as [x' Hx']; [lia|].
      pose proof Hx' as Hy'. rewrite Hbefore in Hy' by lia.
      by rewrite (list_lookup_total_correct _ _ _ Hx'),
                 (list_lookup_total_correct _ _ _ Hy').
    + by rewrite (list_lookup_total_correct _ _ _ Hx),
                 (list_lookup_total_correct _ _ _ Hy).
  - intros Hsame. rewrite lessThan_loop_equal.
    + f_equal.
      destruct (N.ltb_spec (N.of_nat (length av)) (N.of_nat (length bv)));
        [rewrite bool_decide_eq_true_2|rewrite bool_decide_eq_false_2];
        (done || lia).
    + intros j Hj.
      destruct (lookup_lt_is_Some_2 av j) as [x Hx]; [lia|].
      destruct (lookup_lt_is_Some_2 bv j) as [y Hy]; [lia|].
      rewrite (list_lookup_total_correct _ _ _ Hx),
              (list_lookup_total_correct _ _ _ Hy). by eapply Hsame.
Qed.

(** The ids [lessThan], [free] and the others decode from a packed name are
    the ids that were packed into it. *)
Lemma decodeSymbols_packed symbols p :
  Forall (λ s, s < 2 ^ 32) symbols →
  packed_name symbols = Some p →
  SymbolEncoding.decodeSymbols (StatName.data p) (StatName.dataSize p) = symbols.
Proof.
  intros H32 [_ ->]%packed_name_inv.
  rewrite dataSize_prefix, data_prefix. by apply decodeSymbols_encoding.
Qed.

End less_than_positions.

(** C10. [lessThan] semantics: for two packed names holding the id
    sequences [sa] and [sb], at the first position where the ids differ the
    result is the string comparison [<] of the strings the table holds for
    the two ids; when the ids agree at every paired position, the result is
    true exactly when the first name has fewer tokens; in particular a name
    is never less than itself. *)
Theorem C10_lessThan_semantics (tb : SymbolTable.t) (sa sb : list N)
    (a b : list N) :
  Forall (λ s, s < 2 ^ 32) sa → Forall (λ s, s < 2 ^ 32) sb →
  packed_name sa = Some a → packed_name sb = Some b →
  (∀ i x y sx sy,
     sa !! i = Some x → sb !! i = Some y → x ≠ y →
     (∀ j, (j < i)%nat → sa !! j = sb !! j) →
     SymbolTable.fromSymbol tb x = Some sx →
     SymbolTable.fromSymbol tb y = Some sy →
     SymbolTable.lessThan tb a b = Some (String.ltb sx sy))
  ∧ ((∀ i x y, sa !! i = Some x → sb !! i = Some y → x = y) →
     SymbolTable.lessThan tb a b = Some (bool_decide (length sa < length sb)%nat))
  ∧ SymbolTable.lessThan tb a a = Some false.
Proof.
  intros H32a H32b Ha Hb. unfold SymbolTable.lessThan.
  rewrite (decodeSymbols_packed sa a H32a Ha), (decodeSymbols_packed sb b H32b Hb).
  destruct (lessThan_loop_positions tb sa sb) as [Hdiff Hsame].
  split; [exact Hdiff|]. split; [exact Hsame|].
  destruct (lessThan_loop_positions tb sa sa) as [_ Hrefl].
  rewrite Hrefl.
  - f_equal. apply bool_decide_eq_false_2. lia.
  - intros i x y Hx Hy. congruence.
Qed.

Lemma C10_lessThan_semantics_witness :
  SymbolTable.lessThan table_two_names [2; 0; 0; 1] [2; 0; 0; 2]
  = Some (String.ltb "b" "c").
Proof.
  pose proof (C10_lessThan_semantics table_two_names [0; 1] [0; 2]
                [2; 0; 0; 1] [2; 0; 0; 2]) as H.
  destruct H as (H & _ & _).
  - repeat constructor.
  - repeat constructor.
  - reflexivity.
  - reflexivity.
  - apply (H 1%nat 1 2 "b" "c").
    + reflexivity.
    + reflexivity.
    + discriminate.
    + intros [|j] Hj; [reflexivity|lia].
    + reflexivity.
    + reflexivity.
Defined.

(** ** Runs of the model on small inputs *)

Section scenarios.
Import SymbolTable.

(** Two names sharing two tokens: four symbols; after the first name is
    released three remain and the second still renders. *)
Example run_share_and_release :
  ('(tb1, p1) ← StatNameStorage.of_name "cluster.x.rq_total" init;
   '(tb2, p2) ← StatNameStorage.of_name "cluster.y.rq_total" tb1;
   tb3 ← StatNameStorage.free p1 tb2;
   n2 ← numSymbols tb2;
   n3 ← numSymbols tb3;
   s ← StatName_toString p2 tb3;
   Some (p1, p2, n2, n3, s, pool_ tb3))
  = Some ([3; 0; 0; 1; 2], [3; 0; 0; 3; 2], 4, 3, "cluster.y.rq_total", [1]).
Proof. vm_compute. reflexivity. Qed.

(** Ids at and above 128 take two bytes. *)
Example run_two_byte_ids :
  foldl SymbolEncoding.addSymbol [] [127; 128; 200; 16383; 16384]
  = [0x7F; 0x80; 0x01; 0xC8; 0x01; 0xFF; 0x7F; 0x80; 0x80; 0x01].
Proof. vm_compute. reflexivity. Qed.

(** A token repeated in one name is interned once, with one reference per
    occurrence. *)
Example run_repeated_token :
  ('(tb, p) ← StatNameStorage.of_name "a.a.a.a.a" init;
   Some (p, encode_map_ tb !! "a", size (decode_map_ tb)))
  = Some ([5; 0; 0; 0; 0; 0; 0], Some (mkSharedSymbol 0 5), 1%nat).
Proof. vm_compute. reflexivity. Qed.

(** A released id is handed out again, to another string. *)
Example run_id_reuse :
  ('(tb1, p1) ← StatNameStorage.of_name "a" init;
   tb2 ← StatNameStorage.free p1 tb1;
   '(tb3, p2) ← StatNameStorage.of_name "b.c" tb2;
   Some (p1, p2, decode_map_ tb3 !! 0, decode_map_ tb3 !! 1))
  = Some ([1; 0; 0], [2; 0; 1; 0], Some "c", Some "b").
Proof. vm_compute. reflexivity. Qed.

End scenarios.

(** * Further properties of the code *)

(** ** Shape and size of an encoding *)

Lemma base128_shape s bytes :
  base128 s bytes →
  ∃ body last,
    bytes = body ++ [last]
    ∧ Forall (λ b, N.land b SpilloverMask ≠ 0 ∧ b < 256) body
    ∧ last < 128
    ∧ (body = [] ↔ s < 128).
Proof.
  induction 1 as [s Hs|s bytes Hs _ (body & last & -> & Hbody & Hlast & _)].
  - exists [], s. split; [done|]. split; [constructor|]. by split.
  - exists (N.lor (N.land s 0x7F) 0x80 :: body), last.
    split; [done|]. split; [|split; [done|]].
    + constructor; [|done]. split; [|apply cont_byte_bound].
      change 0x7F with Low7Bits. change 0x80 with SpilloverMask.
      by rewrite land_spill_cont.
    + split; [done|lia].
Qed.

(** One id takes one to five bytes, all but the last with the continuation
    bit set, the last without; it takes a single byte exactly when it is
    below 128. *)
Theorem addSymbol_shape (vec : list N) (s : N) :
  s < 2 ^ 32 →
  ∃ body last,
    SymbolEncoding.addSymbol vec s = vec ++ body ++ [last]
    ∧ Forall (λ b, N.land b SpilloverMask ≠ 0 ∧ b < 256) body
    ∧ N.land last SpilloverMask = 0
    ∧ (length body ≤ 4)%nat
    ∧ (body = [] ↔ s < 128).
Proof.
  intros Hs. pose proof (base128_addSymbol s) as Hb.
  destruct (base128_shape _ _ Hb) as (body & last & Heq & Hbody & Hlast & Hone).
  exists body, last.
  rewrite (addSymbol_base128 s _ vec Hb), Heq.
  split; [done|]. split; [done|]. split; [by apply land_spill_small|].
  split; [|done].
  pose proof (base128_length s _ Hb 4%nat) as Hlen.
  rewrite Heq, length_app in Hlen. simpl in Hlen.
  assert (s < 2 ^ (7 * N.of_nat 5)) as H35
    by (eapply N.lt_trans; [exact Hs|reflexivity]).
  specialize (Hlen H35). lia.
Qed.

Lemma addSymbol_shape_witness :
  ∃ body last,
    SymbolEncoding.addSymbol [7] 300 = [7] ++ body ++ [last]
    ∧ Forall (λ b, N.land b SpilloverMask ≠ 0 ∧ b < 256) body
    ∧ N.land last SpilloverMask = 0
    ∧ (length body ≤ 4)%nat
    ∧ (body = [] ↔ 300 < 128).
Proof. apply (addSymbol_shape [7] 300). reflexivity. Defined.

Lemma small_ids_size ids :
  Forall (λ s, s < 128) ids →
  foldl SymbolEncoding.addSymbol [] ids = ids.
Proof.
  intros Hids.
  assert (Forall2 base128 ids ((λ s, [s]) <$> ids)) as HF.
  { induction Hids as [|s ids Hs _ IH]; constructor; [by constructor|done]. }
  rewrite (foldl_addSymbol ids _ [] HF). simpl.
  clear. induction ids as [|s ids IH]; [done|].
  rewrite fmap_cons, concat_cons. simpl. f_equal. exact IH.
Qed.

(** Storage needed for [n] ids: between [n + 2] and [5 n + 2] bytes, and
    exactly [n + 2], the ids themselves behind the prefix, when every id is
    below 128. *)
Theorem bytesRequired_bounds (ids : list N) :
  Forall (λ s, s < 2 ^ 32) ids →
  let vec := foldl SymbolEncoding.addSymbol [] ids in
  N.of_nat (length ids) + 2 ≤ SymbolEncoding.bytesRequired vec
  ∧ SymbolEncoding.bytesRequired vec ≤ 5 * N.of_nat (length ids) + 2
  ∧ (Forall (λ s, s < 128) ids → vec = ids).
Proof.
  intros Hids vec. unfold SymbolEncoding.bytesRequired.
  change StatNameSizeEncodingBytes with 2.
  pose proof (encoding_size_ge ids). pose proof (encoding_size_bound ids Hids).
  split; [subst vec; lia|]. split; [subst vec; lia|]. apply small_ids_size.
Qed.

Lemma bytesRequired_bounds_witness :
  3 + 2 ≤ SymbolEncoding.bytesRequired (foldl SymbolEncoding.addSymbol [] [1; 200; 3])
  ∧ SymbolEncoding.bytesRequired (foldl SymbolEncoding.addSymbol [] [1; 200; 3])
    ≤ 5 * 3 + 2.
Proof.
  pose proof (bytesRequired_bounds [1; 200; 3]) as H.
  destruct H as (H1 & H2 & _); [repeat constructor|].
  split; [exact H1|exact H2].
Defined.

(** ** Equality, hashing and copying of views *)

Lemma eqb_spec_take a b :
  StatName.eqb a b = true
  ↔ StatName.dataSize a = StatName.dataSize b
    ∧ take (N.to_nat (StatName.dataSize a)) (StatName.data a)
      = take (N.to_nat (StatName.dataSize b)) (StatName.data b).
Proof.
  unfold StatName.eqb.
  rewrite andb_true_iff, N.eqb_eq, bool_decide_eq_true. split.
  - intros [Hsz Ht]. split; [done|]. by rewrite <- Hsz.
  - intros [Hsz Ht]. split; [done|]. by rewrite Hsz at 2.
Qed.

(** [operator==] is an equivalence on views, [operator!=] its negation, and
    views that are [==] have the same hash, whatever the hash function. *)
Theorem StatName_eq_equivalence (xxHash64 : list N → N) (a b c : list N) :
  StatName.eqb a a = true
  ∧ StatName.eqb a b = StatName.eqb b a
  ∧ (StatName.eqb a b = true → StatName.eqb b c = true → StatName.eqb a c = true)
  ∧ (StatName.eqb a b = true → StatName_hash xxHash64 a = StatName_hash xxHash64 b)
  ∧ (StatName_neqb a b = true ↔ StatName.eqb a b = false).
Proof.
  split; [by apply eqb_spec_take|]. split; [|split; [|split]].
  - destruct (StatName.eqb a b) eqn:Hab, (StatName.eqb b a) eqn:Hba; try done.
    + apply eqb_spec_take in Hab as [H1 H2].
      assert (StatName.eqb b a = true) by (by apply eqb_spec_take). congruence.
    + apply eqb_spec_take in Hba as [H1 H2].
      assert (StatName.eqb a b = true) by (by apply eqb_spec_take). congruence.
  - intros [H1 H2]%eqb_spec_take [H3 H4]%eqb_spec_take.
    apply eqb_spec_take. split; congruence.
  - intros [H1 H2]%eqb_spec_take. unfold StatName_hash. by rewrite H2.
  - unfold StatName_neqb. by destruct (StatName.eqb a b).
Qed.

Lemma StatName_eq_equivalence_witness :
  StatName_hash (λ bytes, N.of_nat (length bytes)) [1; 0; 5; 9]
  = StatName_hash (λ bytes, N.of_nat (length bytes)) [1; 0; 5; 7; 7].
Proof.
  apply (StatName_eq_equivalence _ [1; 0; 5; 9] [1; 0; 5; 7; 7] []).
  reflexivity.
Defined.

(** On packed names of 32-bit ids, [operator==] decides equality of the id
    sequences. *)
Theorem packed_eq_iff_same_ids (s1 s2 : list N) (p1 p2 : list N) :
  Forall (λ s, s < 2 ^ 32) s1 → Forall (λ s, s < 2 ^ 32) s2 →
  packed_name s1 = Some p1 → packed_name s2 = Some p2 →
  StatName.eqb p1 p2 = true ↔ s1 = s2.
Proof.
  intros H1 H2 [Hsz1 ->]%packed_name_inv [Hsz2 ->]%packed_name_inv.
  rewrite (eqb_packed _ _ Hsz1 Hsz2). split; [|by intros ->].
  intros Heq.
  rewrite <- (decodeSymbols_encoding s1 H1), <- (decodeSymbols_encoding s2 H2).
  by rewrite Heq.
Qed.

Lemma packed_eq_iff_same_ids_witness :
  StatName.eqb [3; 0; 0xAC; 0x02; 5] [2; 0; 0x2C; 5] = true ↔ [300; 5] = [44; 5].
Proof.
  apply (packed_eq_iff_same_ids [300; 5] [44; 5]).
  - repeat constructor.
  - repeat constructor.
  - reflexivity.
  - reflexivity.
Defined.

Lemma dataSize_copy src :
  StatName.dataSize (StatName_copyToStorage src) = StatName.dataSize src.
Proof.
  unfold StatName_copyToStorage, StatName.dataSize, StatName.size.
  change StatNameSizeEncodingBytes with 2.
  rewrite !lookup_total_take_lt by lia. done.
Qed.

Lemma data_copy src :
  StatName.data (StatName_copyToStorage src)
  = take (N.to_nat (StatName.dataSize src)) (StatName.data src).
Proof.
  unfold StatName_copyToStorage, StatName.data, StatName.size.
  change StatNameSizeEncodingBytes with 2.
  rewrite take_drop_commute. do 2 f_equal. lia.
Qed.

(** A copy made by [copyToStorage] holds at most [size()] bytes, is [==] to
    its source, has the same ids and renders the same in every table. *)
Theorem copyToStorage_same_name (src : list N) (tb : SymbolTable.t) :
  N.of_nat (length (StatName_copyToStorage src)) ≤ StatName.size src
  ∧ StatName.eqb (StatName_copyToStorage src) src = true
  ∧ symbols_of (StatName_copyToStorage src) = symbols_of src
  ∧ StatName_toString (StatName_copyToStorage src) tb = StatName_toString src tb.
Proof.
  assert (symbols_of (StatName_copyToStorage src) = symbols_of src) as Hsym.
  { unfold symbols_of, SymbolEncoding.decodeSymbols.
    by rewrite dataSize_copy, data_copy, take_idemp. }
  split; [|split; [|split; [done|]]].
  - unfold StatName_copyToStorage. rewrite length_take. lia.
  - apply eqb_spec_take. rewrite dataSize_copy, data_copy. by rewrite take_idemp.
  - unfold StatName_toString, SymbolTable.decode. fold (symbols_of src).
    by rewrite <- Hsym.
Qed.

(** ** Joining any number of packed names *)

Section join_list.
Import SymbolTable.

Lemma lor_lt_pow2 a b n : a < 2 ^ n → b < 2 ^ n → N.lor a b < 2 ^ n.
Proof.
  intros Ha Hb.
  destruct (N.eq_dec n 0) as [->|Hn0].
  { change (2 ^ 0) with 1 in *. by replace a with 0 by lia. }
  destruct (N.eq_dec (N.lor a b) 0) as [->|Hne]; [lia|].
  apply N.log2_lt_pow2; [lia|]. rewrite N.log2_lor.
  apply N.max_lub_lt.
  - destruct (N.eq_dec a 0) as [->|Hn]; [simpl; lia|].
    apply N.log2_lt_pow2; [lia|done].
  - destruct (N.eq_dec b 0) as [->|Hn]; [simpl; lia|].
    apply N.log2_lt_pow2; [lia|done].
Qed.

Lemma byte_lookup_total (bytes : list N) i :
  Forall (λ x, x < 256) bytes → bytes !!! i < 256.
Proof.
  intros Hb. destruct (bytes !! i) as [x|] eqn:Hi.
  - rewrite (list_lookup_total_correct _ _ _ Hi).
    by apply (Forall_lookup_1 _ _ _ _ Hb Hi).
  - rewrite list_lookup_total_alt, Hi. simpl. done.
Qed.

Lemma dataSize_lt_max (bytes : list N) :
  Forall (λ x, x < 256) bytes → StatName.dataSize bytes < StatNameMaxSize.
Proof.
  intros Hb. unfold StatName.dataSize. change StatNameMaxSize with (2 ^ 16).
  pose proof (byte_lookup_total bytes 0 Hb) as H0.
  pose proof (byte_lookup_total bytes 1 Hb) as H1.
  apply lor_lt_pow2.
  - eapply N.lt_trans; [exact H0|reflexivity].
  - rewrite N.shiftl_mul_pow2. change (2 ^ 16) with (256 * 2 ^ 8).
    apply N.mul_lt_mono_pos_r; [reflexivity|done].
Qed.

Lemma packed_name_view symbols p :
  packed_name symbols = Some p →
  StatName.dataSize p
  = SymbolEncoding.size (foldl SymbolEncoding.addSymbol [] symbols)
  ∧ take (N.to_nat (StatName.dataSize p)) (StatName.data p)
    = foldl SymbolEncoding.addSymbol [] symbols
  ∧ StatName.dataSize p < StatNameMaxSize.
Proof.
  intros [Hsz ->]%packed_name_inv.
  rewrite dataSize_prefix, data_prefix, take_size. done.
Qed.

Lemma packed_name_eq symbols :
  packed_name symbols
  = header ← SymbolEncoding.saveLengthToBytesReturningNext
               (SymbolEncoding.size (foldl SymbolEncoding.addSymbol [] symbols));
    Some (header ++ foldl SymbolEncoding.addSymbol [] symbols).
Proof.
  unfold packed_name, SymbolEncoding.moveToStorage.
  destruct (SymbolEncoding.saveLengthToBytesReturningNext _) as [h|]; [|done].
  simpl. destruct (N.eqb_spec (SymbolEncoding.size
                                 (foldl SymbolEncoding.addSymbol [] symbols)) 0)
    as [Hz|_]; [|done].
  destruct (foldl SymbolEncoding.addSymbol [] symbols) as [|x l];
    [by rewrite app_nil_r|]. unfold SymbolEncoding.size in Hz. simpl in Hz. lia.
Qed.

Lemma foldl_addSymbol_concat sss :
  foldl SymbolEncoding.addSymbol [] (concat sss)
  = concat ((foldl SymbolEncoding.addSymbol []) <$> sss).
Proof.
  induction sss as [|ss sss IH]; [done|].
  rewrite concat_cons, foldl_addSymbol_app, IH. done.
Qed.

Lemma join_list_sizes sss ps :
  Forall2 (λ ss p, packed_name ss = Some p) sss ps →
  ∀ acc,
    acc + SymbolEncoding.size (foldl SymbolEncoding.addSymbol [] (concat sss))
      < 2 ^ 64 →
    foldl (λ num_bytes stat_name, u64 (num_bytes + StatName.dataSize stat_name))
          acc ps
    = acc + SymbolEncoding.size (foldl SymbolEncoding.addSymbol [] (concat sss)).
Proof.
  induction 1 as [|ss p sss ps Hp _ IH]; intros acc Hacc.
  - simpl. unfold SymbolEncoding.size. simpl. lia.
  - rewrite concat_cons, foldl_addSymbol_app, size_app in *.
    destruct (packed_name_view _ _ Hp) as (Hsz & _ & _).
    cbn [foldl]. rewrite Hsz.
    assert (u64 (acc + SymbolEncoding.size (foldl SymbolEncoding.addSymbol [] ss))
            = acc + SymbolEncoding.size (foldl SymbolEncoding.addSymbol [] ss))
      as -> by (apply N.mod_small; lia).
    rewrite IH by lia. lia.
Qed.

Lemma join_list_payload sss ps :
  Forall2 (λ ss p, packed_name ss = Some p) sss ps →
  ∀ written,
    foldl (λ written stat_name,
             written ++ take (N.to_nat (StatName.dataSize stat_name))
                             (StatName.data stat_name))
          written ps
    = written ++ foldl SymbolEncoding.addSymbol [] (concat sss).
Proof.
  induction 1 as [|ss p sss ps Hp _ IH]; intros written.
  - simpl. by rewrite app_nil_r.
  - rewrite concat_cons, foldl_addSymbol_app.
    destruct (packed_name_view _ _ Hp) as (_ & Hdata & _).
    cbn [foldl]. rewrite Hdata, IH. by rewrite app_assoc.
Qed.

Lemma join_list_packed sss ps :
  Forall2 (λ ss p, packed_name ss = Some p) sss ps →
  SymbolEncoding.size (foldl SymbolEncoding.addSymbol [] (concat sss)) < 2 ^ 64 →
  StatNameJoiner_join_list ps = packed_name (concat sss).
Proof.
  intros HF Hsz. unfold StatNameJoiner_join_list.
  rewrite (join_list_sizes _ _ HF 0) by (by rewrite N.add_0_l).
  rewrite N.add_0_l, packed_name_eq. unfold StatNameJoiner.alloc.
  destruct (SymbolEncoding.saveLengthToBytesReturningNext _) as [h|]; [|done].
  simpl. by rewrite (join_list_payload _ _ HF).
Qed.

Lemma join_pair_list a b :
  StatName.dataSize a + StatName.dataSize b < 2 ^ 64 →
  StatNameJoiner.join a b = StatNameJoiner_join_list [a; b].
Proof.
  intros Hsz. unfold StatNameJoiner.join, StatNameJoiner_join_list.
  cbn [foldl]. rewrite N.add_0_l.
  assert (u64 (StatName.dataSize a) = StatName.dataSize a) as ->
    by (apply N.mod_small; lia).
  assert (u64 (StatName.dataSize a + StatName.dataSize b)
          = StatName.dataSize a + StatName.dataSize b) as ->
    by (apply N.mod_small; lia).
  destruct (StatNameJoiner.alloc _) as [p|]; [|done]. simpl.
  by rewrite <- app_assoc.
Qed.

Lemma packed_name_None_app s1 s2 :
  packed_name s1 = None → packed_name (s1 ++ s2) = None.
Proof.
  rewrite !packed_name_eq, foldl_addSymbol_app, size_app.
  unfold SymbolEncoding.saveLengthToBytesReturningNext.
  destruct (N.ltb_spec (SymbolEncoding.size (foldl SymbolEncoding.addSymbol [] s1))
                       StatNameMaxSize); [done|].
  intros _. destruct (N.ltb_spec
    (SymbolEncoding.size (foldl SymbolEncoding.addSymbol [] s1)
     + SymbolEncoding.size (foldl SymbolEncoding.addSymbol [] s2)) StatNameMaxSize);
    [lia|done].
Qed.

Lemma packed_name_None_app_r s1 s2 :
  packed_name s2 = None → packed_name (s1 ++ s2) = None.
Proof.
  rewrite !packed_name_eq, foldl_addSymbol_app, size_app.
  unfold SymbolEncoding.saveLengthToBytesReturningNext.
  destruct (N.ltb_spec (SymbolEncoding.size (foldl SymbolEncoding.addSymbol [] s2))
                       StatNameMaxSize); [done|].
  intros _. destruct (N.ltb_spec
    (SymbolEncoding.size (foldl SymbolEncoding.addSymbol [] s1)
     + SymbolEncoding.size (foldl SymbolEncoding.addSymbol [] s2)) StatNameMaxSize);
    [lia|done].
Qed.

Lemma join_packed sa sb a b :
  packed_name sa = Some a → packed_name sb = Some b →
  StatNameJoiner.join a b = packed_name (sa ++ sb).
Proof.
  intros Ha Hb.
  destruct (packed_name_view _ _ Ha) as (Hsa & _ & Hma).
  destruct (packed_name_view _ _ Hb) as (Hsb & _ & Hmb).
  change StatNameMaxSize with 65536 in *.
  assert (65536 + 65536 < 2 ^ 64) as Hroom by done.
  rewrite join_pair_list by lia.
  rewrite (join_list_packed [sa; sb] [a; b]).
  - simpl. by rewrite app_nil_r.
  - by repeat constructor.
  - simpl. rewrite app_nil_r, foldl_addSymbol_app, size_app. lia.
Qed.

End join_list.

(** The two constructors of [StatNameJoiner] agree on two byte arrays. *)
Theorem join_pair_is_join_list (a b : list N) :
  Forall (λ x, x < 256) a → Forall (λ x, x < 256) b →
  StatNameJoiner.join a b = StatNameJoiner_join_list [a; b].
Proof.
  intros Ha%dataSize_lt_max Hb%dataSize_lt_max.
  apply join_pair_list. change StatNameMaxSize with 65536 in *.
  assert (65536 + 65536 < 2 ^ 64) by done. lia.
Qed.

Lemma join_pair_is_join_list_witness :
  StatNameJoiner.join [2; 0; 0; 1] [1; 0; 2]
  = StatNameJoiner_join_list [[2; 0; 0; 1]; [1; 0; 2]].
Proof.
  apply (join_pair_is_join_list [2; 0; 0; 1] [1; 0; 2]); repeat constructor.
Defined.

(** Joining the packed names of id sequences gives the packed name of the
    concatenated sequence, and aborts exactly when that one does not fit the
    length prefix. *)
Theorem join_list_is_packed_concat (sss : list (list N)) (ps : list (list N)) :
  Forall2 (λ ss p, packed_name ss = Some p) sss ps →
  SymbolEncoding.size (foldl SymbolEncoding.addSymbol [] (concat sss)) < 2 ^ 64 →
  StatNameJoiner_join_list ps = packed_name (concat sss).
Proof. apply join_list_packed. Qed.

Lemma join_list_is_packed_concat_witness :
  StatNameJoiner_join_list [[2; 0; 0; 1]; [0; 0]; [1; 0; 2]]
  = packed_name [0; 1; 2].
Proof.
  apply (join_list_is_packed_concat [[0; 1]; []; [2]]).
  - repeat constructor.
  - reflexivity.
Defined.

(** Joining is associative on packed names, both groupings agreeing with the
    three-name join and aborting together, and the empty packed name is a
    unit on both sides. *)
Theorem join_monoid (sa sb sc : list N) (a b c : list N) :
  packed_name sa = Some a → packed_name sb = Some b → packed_name sc = Some c →
  (StatNameJoiner.join a b ≫= λ ab, StatNameJoiner.join ab c)
    = StatNameJoiner_join_list [a; b; c]
  ∧ (StatNameJoiner.join b c ≫= λ bc, StatNameJoiner.join a bc)
    = StatNameJoiner_join_list [a; b; c]
  ∧ StatNameJoiner.join [0; 0] a = Some a
  ∧ StatNameJoiner.join a [0; 0] = Some a.
Proof.
  intros Ha Hb Hc.
  destruct (packed_name_view _ _ Ha) as (Hsa & _ & Hma).
  destruct (packed_name_view _ _ Hb) as (Hsb & _ & Hmb).
  destruct (packed_name_view _ _ Hc) as (Hsc & _ & Hmc).
  change StatNameMaxSize with 65536 in *.
  assert (65536 + 65536 + 65536 < 2 ^ 64) as Hroom by done.
  assert (StatNameJoiner_join_list [a; b; c] = packed_name (sa ++ sb ++ sc)) as ->.
  { rewrite (join_list_packed [sa; sb; sc] [a; b; c]).
    - simpl. by rewrite app_nil_r.
    - by repeat constructor.
    - simpl. rewrite app_nil_r, !foldl_addSymbol_app, !size_app. lia. }
  split; [|split; [|split]].
  - rewrite (join_packed sa sb a b Ha Hb).
    destruct (packed_name (sa ++ sb)) as [ab|] eqn:Hab; simpl.
    + rewrite (join_packed _ _ _ _ Hab Hc). by rewrite <- app_assoc.
    + symmetry. rewrite app_assoc. by apply packed_name_None_app.
  - rewrite (join_packed sb sc b c Hb Hc).
    destruct (packed_name (sb ++ sc)) as [bc|] eqn:Hbc; simpl.
    + by rewrite (join_packed _ _ _ _ Ha Hbc).
    + symmetry. by apply packed_name_None_app_r.
  - by rewrite (join_packed [] sa [0; 0] a eq_refl Ha).
  - rewrite (join_packed sa [] a [0; 0] Ha eq_refl). by rewrite app_nil_r.
Qed.

Lemma join_monoid_witness :
  (StatNameJoiner.join [1; 0; 0] [1; 0; 1] ≫= λ ab, StatNameJoiner.join ab [1; 0; 2])
  = StatNameJoiner_join_list [[1; 0; 0]; [1; 0; 1]; [1; 0; 2]].
Proof.
  apply (join_monoid [0] [1] [2] [1; 0; 0] [1; 0; 1] [1; 0; 2]); reflexivity.
Defined.

(** ** Accounting of ids and reference counts *)

Section accounting.
Import SymbolTable.

Lemma toSymbol_dense tb t tb' i :
  ids_ok tb → ids_dense tb → toSymbol tb t = Some (tb', i) → ids_dense tb'.
Proof.
  intros Hids [Hd Hc]. unfold toSymbol.
  destruct (encode_map_ tb !! t) as [shared|].
  - by intros [= <- <-].
  - pose proof (ids_next_fresh tb Hids) as Hfresh. rewrite Hfresh.
    unfold newSymbol. simpl.
    destruct (pool_ tb) as [|top rest] eqn:Hpool; simpl.
    + destruct (N.eqb_spec (u32 (monotonic_counter_ tb + 1)) 0) as [|Hne];
        [done|].
      intros [= <- <-].
      rewrite (u32_succ_nonzero _ (ids_counter tb Hids) Hne).
      split; simpl.
      * intros j Hj. destruct (decide (j = monotonic_counter_ tb + 1)) as [|Hn];
          [by left|]. right; right.
        destruct (decide (j = next_symbol_ tb)) as [->|Hjn];
          [by rewrite lookup_insert_eq|].
        rewrite lookup_insert_ne by done.
        destruct (Hd j) as [?|[Hp|?]]; [lia|done| |done].
        by apply not_elem_of_nil in Hp.
      * rewrite map_size_insert_None by done. simpl in Hc. lia.
    + destruct (N.eqb_spec (monotonic_counter_ tb) 0) as [|Hne]; [done|].
      intros [= <- <-]. split; simpl.
      * intros j Hj.
        destruct (decide (j = next_symbol_ tb)) as [->|Hjn];
          [right; right; by rewrite lookup_insert_eq|].
        rewrite lookup_insert_ne by done.
        destruct (Hd j Hj) as [?|[[->|Hp]%elem_of_cons|?]]; [done|auto..].
      * rewrite map_size_insert_None by done. simpl in Hc. lia.
Qed.

Lemma free_symbol_dense tb j tb' :
  ids_dense tb → free_symbol tb j = Some tb' → ids_dense tb'.
Proof.
  intros [Hd Hc]. unfold free_symbol.
  destruct (decode_map_ tb !! j) as [str|] eqn:Hj; [|done]. simpl.
  destruct (encode_map_ tb !! str) as [shared|]; [|done]. simpl.
  case_match; intros [= <-]; [|done]. split; simpl.
  - intros i Hi. destruct (decide (i = j)) as [->|Hij].
    + right; left. by left.
    + rewrite lookup_delete_ne by done.
      destruct (Hd i Hi) as [?|[?|?]]; auto. right; left. by right.
  - rewrite Hc.
    assert (size (decode_map_ tb) ≠ 0%nat).
    { intros Hz%map_size_empty_inv. by rewrite Hz in Hj. }
    rewrite (map_size_delete_Some j (decode_map_ tb)) by eauto. simpl. lia.
Qed.

Lemma incRefCount_symbol_frame tb j tb' :
  incRefCount_symbol tb j = Some tb' →
  decode_map_ tb' = decode_map_ tb ∧ pool_ tb' = pool_ tb
  ∧ next_symbol_ tb' = next_symbol_ tb
  ∧ monotonic_counter_ tb' = monotonic_counter_ tb.
Proof.
  unfold incRefCount_symbol.
  destruct (decode_map_ tb !! j) as [str|]; [|done]. simpl.
  destruct (encode_map_ tb !! str) as [shared|]; [|done]. simpl.
  by intros [= <-].
Qed.

Lemma incRefCount_frame tb sn tb' :
  incRefCount tb sn = Some tb' →
  decode_map_ tb' = decode_map_ tb ∧ pool_ tb' = pool_ tb
  ∧ next_symbol_ tb' = next_symbol_ tb
  ∧ monotonic_counter_ tb' = monotonic_counter_ tb.
Proof.
  unfold incRefCount.
  apply (for_each_invariant
           (λ x, decode_map_ x = decode_map_ tb ∧ pool_ x = pool_ tb
                 ∧ next_symbol_ x = next_symbol_ tb
                 ∧ monotonic_counter_ x = monotonic_counter_ tb)); [|done].
  intros tb1 j tb2 (H1 & H2 & H3 & H4) (H5 & H6 & H7 & H8)%incRefCount_symbol_frame.
  repeat split; congruence.
Qed.

Lemma toSymbols_dense tokens : ∀ tb tb' ids,
  wf tb → ids_dense tb → toSymbols tb tokens = Some (tb', ids) → ids_dense tb'.
Proof.
  induction tokens as [|t tokens IH]; intros tb tb' ids [Hbi Hids] Hd; simpl.
  - by intros [= <- <-].
  - destruct (toSymbol tb t) as [[tb1 i]|] eqn:H1; [|done]. simpl.
    destruct (toSymbols tb1 tokens) as [[tb2 ids']|] eqn:H2; [|done]. simpl.
    intros [= <- <-].
    destruct (toSymbol_bimap _ _ _ _ Hbi H1) as (Hbi1 & _).
    destruct (toSymbol_ids_ok _ _ _ _ Hids H1) as (Hids1 & _).
    apply (IH tb1 tb2 ids' (conj Hbi1 Hids1)); [|done].
    exact (toSymbol_dense _ _ _ _ Hids Hd H1).
Qed.

Lemma table_step_dense tb tb' :
  wf tb → ids_dense tb → table_step tb tb' → ids_dense tb'.
Proof.
  intros Hwf Hd Hstep.
  destruct Hstep as [tb name tb' e H|tb sn tb' H|tb sn tb' H].
  - unfold encode in H. destruct name as [|c name]; [by injection H as <- _|].
    destruct (toSymbols _ _) as [[tb1 ids]|] eqn:H1; [|done].
    simpl in H. injection H as <- _. by eapply toSymbols_dense.
  - revert H. unfold free.
    apply (for_each_invariant ids_dense); [|done].
    intros ? ? ?. apply free_symbol_dense.
  - destruct (incRefCount_frame _ _ _ H) as (Hdm & Hp & Hn & Hm).
    destruct Hd as [Hd Hc]. split.
    + intros i. rewrite Hdm, Hp, Hn, Hm. apply Hd.
    + by rewrite Hdm, Hp, Hm.
Qed.

Lemma reachable_dense tb : reachable tb → ids_dense tb.
Proof.
  induction 1 as [|tb tb' Hr IH Hstep].
  - split; [|done]. intros i Hi. left. simpl in *. lia.
  - eapply table_step_dense; [by apply reachable_wf|done|done].
Qed.

End accounting.

(** No id leaks: in every table reachable by [encode], [free] and
    [incRefCount], each id from 0 up to [monotonic_counter_] is the staged
    [next_symbol_], in the free pool or in [decode_map_], and
    [monotonic_counter_] equals [numSymbols] plus the size of the pool. *)
Theorem ids_are_dense (tb : SymbolTable.t) :
  reachable tb →
  (∀ i, i ≤ SymbolTable.monotonic_counter_ tb →
        i = SymbolTable.next_symbol_ tb
        ∨ i ∈ SymbolTable.pool_ tb
        ∨ is_Some (SymbolTable.fromSymbol tb i))
  ∧ ∃ n, SymbolTable.numSymbols tb = Some n
         ∧ SymbolTable.monotonic_counter_ tb
           = n + N.of_nat (length (SymbolTable.pool_ tb)).
Proof.
  intros Hr. destruct (reachable_dense tb Hr) as [Hd Hc].
  split; [exact Hd|].
  destruct (reachable_wf tb Hr) as [[_ Hsz] _].
  exists (N.of_nat (size (SymbolTable.decode_map_ tb))). split; [|lia].
  unfold SymbolTable.numSymbols. rewrite Hsz. by case_decide.
Qed.

Lemma ids_are_dense_witness :
  ∃ n, SymbolTable.numSymbols table_after_free = Some n
       ∧ SymbolTable.monotonic_counter_ table_after_free
         = n + N.of_nat (length (SymbolTable.pool_ table_after_free)).
Proof.
  apply (ids_are_dense table_after_free). apply table_after_free_reachable.
Defined.

(** ** What [encode] does to the reference counts *)

Section encode_accounting.
Import SymbolTable.

Lemma toSymbol_accounting tb t tb' i :
  toSymbol tb t = Some (tb', i) →
  dom (encode_map_ tb') = {[t]} ∪ dom (encode_map_ tb)
  ∧ (∀ s, ref_count_of tb' s
          = if decide (s = t) then u32 (ref_count_of tb s + 1)
            else ref_count_of tb s)
  ∧ (∀ s shared, encode_map_ tb !! s = Some shared →
                 ∃ rc, encode_map_ tb' !! s
                       = Some (mkSharedSymbol (symbol_ shared) rc)).
Proof.
  unfold toSymbol, ref_count_of.
  destruct (encode_map_ tb !! t) as [shared|] eqn:Ht.
  - intros [= <- <-]. simpl. split; [|split].
    + rewrite dom_insert_L. done.
    + intros s. case_decide as Hs.
      * subst s. by rewrite lookup_insert_eq, Ht.
      * by rewrite lookup_insert_ne.
    + intros s sh Hs. destruct (decide (t = s)) as [->|Hne].
      * rewrite lookup_insert_eq. rewrite Ht in Hs. injection Hs as <-. eauto.
      * rewrite lookup_insert_ne by done. destruct sh. eauto.
  - destruct (decode_map_ tb !! next_symbol_ tb); [done|].
    destruct (newSymbol _) as [tb1|] eqn:Hnew; [|done]. simpl.
    intros [= <- <-]. apply newSymbol_maps in Hnew as [-> _]. simpl.
    split; [|split].
    + by rewrite dom_insert_L.
    + intros s. case_decide as Hs.
      * subst s. by rewrite lookup_insert_eq, Ht.
      * by rewrite lookup_insert_ne.
    + intros s sh Hs. rewrite lookup_insert_ne by congruence. destruct sh. eauto.
Qed.

Lemma occurrences_cons_eq s l : occurrences s (s :: l) = occurrences s l + 1.
Proof.
  unfold occurrences. rewrite filter_cons_True by done. simpl. lia.
Qed.

Lemma occurrences_cons_ne s t l : t ≠ s → occurrences s (t :: l) = occurrences s l.
Proof. intros Hne. unfold occurrences. by rewrite filter_cons_False. Qed.

Lemma toSymbols_accounting tokens : ∀ tb tb' ids,
  toSymbols tb tokens = Some (tb', ids) →
  dom (encode_map_ tb') = dom (encode_map_ tb) ∪ list_to_set tokens
  ∧ (∀ s, ref_count_of tb s + occurrences s tokens < 2 ^ 32 →
          ref_count_of tb' s = ref_count_of tb s + occurrences s tokens)
  ∧ (∀ s shared, encode_map_ tb !! s = Some shared →
                 ∃ rc, encode_map_ tb' !! s
                       = Some (mkSharedSymbol (symbol_ shared) rc)).
Proof.
  induction tokens as [|t tokens IH]; intros tb tb' ids; simpl.
  - intros [= <- <-]. split; [by rewrite union_empty_r_L|]. split.
    + intros s _. unfold occurrences. simpl. lia.
    + intros s [id rc] Hs. eauto.
  - destruct (toSymbol tb t) as [[tb1 i]|] eqn:H1; [|done]. simpl.
    destruct (toSymbols tb1 tokens) as [[tb2 ids']|] eqn:H2; [|done]. simpl.
    intros [= <- <-].
    destruct (toSymbol_accounting _ _ _ _ H1) as (Hdom1 & Hrc1 & Hid1).
    destruct (IH _ _ _ H2) as (Hdom2 & Hrc2 & Hid2).
    split; [|split].
    + rewrite Hdom2, Hdom1.
      by rewrite (union_comm_L {[t]}), union_assoc_L.
    + intros s Hs. specialize (Hrc1 s). case_decide as Hst.
      * subst t. rewrite occurrences_cons_eq in Hs |- *.
        assert (u32 (ref_count_of tb s + 1) = ref_count_of tb s + 1) as Hu
          by (apply N.mod_small; lia).
        rewrite Hrc2; rewrite Hrc1, Hu; lia.
      * rewrite occurrences_cons_ne in Hs |- * by done.
        rewrite Hrc2; rewrite Hrc1; done.
    + intros s sh Hs. destruct (Hid1 _ _ Hs) as [rc Hs1].
      destruct (Hid2 _ _ Hs1) as [rc' Hs2]. eauto.
Qed.

Lemma toSymbol_known tb t shared :
  encode_map_ tb !! t = Some shared →
  ∃ tb', toSymbol tb t = Some (tb', symbol_ shared)
         ∧ decode_map_ tb' = decode_map_ tb ∧ pool_ tb' = pool_ tb
         ∧ next_symbol_ tb' = next_symbol_ tb
         ∧ monotonic_counter_ tb' = monotonic_counter_ tb
         ∧ dom (encode_map_ tb') = dom (encode_map_ tb)
         ∧ size (encode_map_ tb') = size (encode_map_ tb).
Proof.
  intros Ht. unfold toSymbol. rewrite Ht. eexists. split; [done|]. simpl.
  do 4 (split; [done|]). split.
  - rewrite dom_insert_L. apply elem_of_dom_2 in Ht.
    apply subseteq_union_1_L. by apply singleton_subseteq_l.
  - by rewrite map_size_insert_Some.
Qed.

Lemma toSymbols_known tokens : ∀ tb,
  Forall (λ t, is_Some (encode_map_ tb !! t)) tokens →
  ∃ tb' ids, toSymbols tb tokens = Some (tb', ids)
             ∧ decode_map_ tb' = decode_map_ tb ∧ pool_ tb' = pool_ tb
             ∧ next_symbol_ tb' = next_symbol_ tb
             ∧ monotonic_counter_ tb' = monotonic_counter_ tb
             ∧ dom (encode_map_ tb') = dom (encode_map_ tb)
             ∧ size (encode_map_ tb') = size (encode_map_ tb).
Proof.
  induction tokens as [|t tokens IH]; intros tb Hall; simpl.
  - by exists tb, [].
  - apply Forall_cons in Hall as [[shared Ht] Hall].
    destruct (toSymbol_known _ _ _ Ht)
      as (tb1 & -> & Hdm & Hp & Hn & Hm & Hdom & Hsz). simpl.
    destruct (IH tb1) as (tb2 & ids & -> & Hdm2 & Hp2 & Hn2 & Hm2 & Hdom2 & Hsz2).
    { eapply Forall_impl; [exact Hall|]. intros s Hs. simpl in Hs.
      apply elem_of_dom. rewrite Hdom. by apply elem_of_dom. }
    simpl. exists tb2, (symbol_ shared :: ids). split; [done|].
    repeat split; congruence.
Qed.

Lemma toString_mono tb tb' p s :
  (∀ i t, decode_map_ tb !! i = Some t → decode_map_ tb' !! i = Some t) →
  StatName_toString p tb = Some s → StatName_toString p tb' = Some s.
Proof.
  intros Hkeep. unfold StatName_toString, decode, decodeSymbolVec.
  destruct (mapM (fromSymbol tb) _) as [toks|] eqn:Hm; [|done]. simpl.
  intros [= <-]. apply mapM_Some_1 in Hm.
  rewrite (mapM_Some_2 (fromSymbol tb') _ toks); [done|].
  eapply Forall2_impl; [exact Hm|]. intros i t. apply Hkeep.
Qed.

End encode_accounting.

(** [encode] adds to the reference count of every string the number of its
    occurrences among the pieces of the name (as long as that does not
    wrap), interns exactly the pieces the table lacked, and leaves every id
    already assigned as it is. *)
Theorem encode_accounting (tb tb' : SymbolTable.t) (name : string) (e : list N) :
  SymbolTable.encode tb name = Some (tb', e) →
  dom (SymbolTable.encode_map_ tb')
    = dom (SymbolTable.encode_map_ tb) ∪ list_to_set (tokens_of name)
  ∧ (∀ s, ref_count_of tb s + occurrences s (tokens_of name) < 2 ^ 32 →
          ref_count_of tb' s = ref_count_of tb s + occurrences s (tokens_of name))
  ∧ (∀ s shared,
       SymbolTable.encode_map_ tb !! s = Some shared →
       ∃ rc, SymbolTable.encode_map_ tb' !! s
             = Some (SymbolTable.mkSharedSymbol (SymbolTable.symbol_ shared) rc)).
Proof.
  unfold SymbolTable.encode. destruct name as [|c name].
  - intros [= <- <-]. apply (toSymbols_accounting [] tb tb []). done.
  - destruct (SymbolTable.toSymbols _ _) as [[tb1 ids]|] eqn:H1; [|done]. simpl.
    intros [= <- <-]. by apply (toSymbols_accounting _ _ _ _ H1).
Qed.

Lemma encode_accounting_witness :
  ref_count_of table_two_names "a"
  = ref_count_of table_after_two_tokens "a" + occurrences "a" (tokens_of "a.c").
Proof.
  assert (SymbolTable.encode table_after_two_tokens "a.c"
          = Some (table_two_names, [0; 2])) as Hrun by (vm_compute; reflexivity).
  pose proof (encode_accounting _ _ _ _ Hrun) as (_ & H & _).
  apply (H "a"). reflexivity.
Defined.

(** Encoding a name whose pieces are all in the table always returns and
    allocates nothing: [decode_map_], the pool, [next_symbol_],
    [monotonic_counter_], the set of interned strings and [numSymbols] stay
    as they are. *)
Theorem encode_known_tokens (tb : SymbolTable.t) (name : string) :
  Forall (λ t, is_Some (SymbolTable.encode_map_ tb !! t)) (tokens_of name) →
  ∃ tb' e,
    SymbolTable.encode tb name = Some (tb', e)
    ∧ SymbolTable.decode_map_ tb' = SymbolTable.decode_map_ tb
    ∧ SymbolTable.pool_ tb' = SymbolTable.pool_ tb
    ∧ SymbolTable.next_symbol_ tb' = SymbolTable.next_symbol_ tb
    ∧ SymbolTable.monotonic_counter_ tb' = SymbolTable.monotonic_counter_ tb
    ∧ dom (SymbolTable.encode_map_ tb') = dom (SymbolTable.encode_map_ tb)
    ∧ SymbolTable.numSymbols tb' = SymbolTable.numSymbols tb.
Proof.
  intros Hall. unfold SymbolTable.encode. destruct name as [|c name].
  - exists tb, []. by repeat split.
  - destruct (toSymbols_known _ tb Hall)
      as (tb' & ids & Hrun & Hdm & Hp & Hn & Hm & Hdom & Hsz).
    change (tokens_of (String c name)) with (StrSplit (String c name) ".") in Hrun.
    rewrite Hrun. simpl.
    eexists _, _. split; [done|]. do 5 (split; [done|]).
    unfold SymbolTable.numSymbols. by rewrite Hsz, Hdm.
Qed.

Lemma encode_known_tokens_witness :
  ∃ tb' e,
    SymbolTable.encode table_after_encode "x.cluster.x" = Some (tb', e)
    ∧ SymbolTable.decode_map_ tb' = SymbolTable.decode_map_ table_after_encode
    ∧ SymbolTable.pool_ tb' = SymbolTable.pool_ table_after_encode
    ∧ SymbolTable.next_symbol_ tb' = SymbolTable.next_symbol_ table_after_encode
    ∧ SymbolTable.monotonic_counter_ tb'
      = SymbolTable.monotonic_counter_ table_after_encode
    ∧ dom (SymbolTable.encode_map_ tb')
      = dom (SymbolTable.encode_map_ table_after_encode)
    ∧ SymbolTable.numSymbols tb' = SymbolTable.numSymbols table_after_encode.
Proof.
  apply (encode_known_tokens table_after_encode "x.cluster.x").
  repeat constructor; vm_compute; eexists; reflexivity.
Defined.

(** A name that renders keeps rendering to the same string after any
    [encode] and any [incRefCount] on the table. *)
Theorem live_names_survive (tb : SymbolTable.t) (p : list N) (s : string) :
  reachable tb →
  StatName_toString p tb = Some s →
  (∀ name tb' e, SymbolTable.encode tb name = Some (tb', e) →
                 StatName_toString p tb' = Some s)
  ∧ (∀ q tb', SymbolTable.incRefCount tb q = Some tb' →
              StatName_toString p tb' = Some s).
Proof.
  intros Hwf%reachable_wf Hp. split.
  - intros name tb' e He.
    destruct (encode_inv _ _ _ _ Hwf He) as (_ & _ & _ & _ & _ & _ & _ & _ & _ & Hkeep).
    by eapply toString_mono.
  - intros q tb' Hq. destruct (incRefCount_frame _ _ _ Hq) as (Hdm & _).
    eapply toString_mono; [|done]. intros i t. by rewrite Hdm.
Qed.

Lemma live_names_survive_witness :
  StatName_toString [3; 0; 0; 1; 2] table_two_names_shared
  = Some "cluster.x.rq_total".
Proof.
  pose proof (live_names_survive table_after_encode [3; 0; 0; 1; 2]
                "cluster.x.rq_total" table_after_encode_reachable eq_refl)
    as [H _].
  apply (H "cluster.y.rq_total" table_two_names_shared [0; 3; 2]).
  vm_compute. reflexivity.
Defined.

(** ** Lifetime of names: retain, release, stale names *)

Section lifetime.
Import SymbolTable.

Lemma incRefCount_symbol_bimap tb i tb' :
  bimap tb → incRefCount_symbol tb i = Some tb' → bimap tb'.
Proof.
  intros Hbi. unfold incRefCount_symbol.
  destruct (decode_map_ tb !! i) as [str|]; [|done]. simpl.
  destruct (encode_map_ tb !! str) as [shared|] eqn:Hstr; [|done]. simpl.
  intros [= <-]. unfold bimap. simpl. by apply bimap_set_ref_count.
Qed.

Lemma incRefCount_symbol_extra tb i tb' t :
  bimap tb → decode_map_ tb !! i = Some t →
  (∀ shared, encode_map_ tb !! t = Some shared →
             1 ≤ ref_count_ shared ∧ ref_count_ shared + 1 < 2 ^ 32) →
  incRefCount_symbol tb i = Some tb' →
  extra_ref t i tb' tb.
Proof.
  intros Hbi Hi Hrc. unfold incRefCount_symbol. rewrite Hi. simpl.
  destruct (encode_map_ tb !! t) as [[id rc]|] eqn:Ht; [|done]. simpl.
  intros [= <-].
  pose proof (bimap_symbol_of _ _ _ _ _ Hbi Hi Ht) as Hid. simpl in Hid. subst id.
  destruct (Hrc _ eq_refl) as [H1 H2]. simpl in *.
  apply (extra_bump _ _ _ _ rc); simpl; [done|done|done| |done].
  unfold u32. by rewrite N.mod_small.
Qed.

Lemma incRefCount_symbol_rc_bounded toks k tb i tb' :
  rc_bounded toks k tb → k + 1 < 2 ^ 32 →
  incRefCount_symbol tb i = Some tb' →
  rc_bounded toks (k + 1) tb'.
Proof.
  intros Hrc Hk. unfold incRefCount_symbol.
  destruct (decode_map_ tb !! i) as [str|]; [|done]. simpl.
  destruct (encode_map_ tb !! str) as [[id rc]|] eqn:Hstr; [|done]. simpl.
  intros [= <-] tok shared Htok. simpl.
  destruct (decide (str = tok)) as [->|Hne].
  - rewrite lookup_insert_eq. intros [= <-]. simpl.
    destruct (Hrc _ _ Htok Hstr) as [H1 H2]. simpl in *.
    unfold u32. rewrite N.mod_small by lia. lia.
  - rewrite lookup_insert_ne by done. intros Hs.
    destruct (Hrc _ _ Htok Hs). lia.
Qed.

Lemma incRefCount_symbol_live tb i :
  bimap tb →
  is_Some (incRefCount_symbol tb i) ↔ is_Some (decode_map_ tb !! i).
Proof.
  intros Hbi. unfold incRefCount_symbol.
  destruct (decode_map_ tb !! i) as [str|] eqn:Hi; simpl.
  - destruct Hbi as [Hinv _]. apply Hinv in Hi as [rc ->]. simpl.
    split; eauto.
  - split; intros [? ?]; done.
Qed.

(** Releasing, in order, the ids whose counts were just incremented brings
    back both maps. *)
Lemma incRefs_free toks ids : ∀ tb tb' k,
  bimap tb → rc_bounded toks k tb →
  Forall (λ i, ∃ t, decode_map_ tb !! i = Some t ∧ t ∈ toks) ids →
  k + N.of_nat (length ids) < 2 ^ 32 →
  for_each incRefCount_symbol tb ids = Some tb' →
  bimap tb'
  ∧ rc_bounded toks (k + N.of_nat (length ids)) tb'
  ∧ decode_map_ tb' = decode_map_ tb
  ∧ ∃ tb'', for_each free_symbol tb' ids = Some tb''
            ∧ encode_map_ tb'' = encode_map_ tb
            ∧ decode_map_ tb'' = decode_map_ tb.
Proof.
  induction ids as [|i ids IH] using rev_ind; intros tb tb' k Hbi Hrc Hlive Hk.
  - simpl. intros [= <-]. rewrite N.add_0_r.
    do 3 (split; [done|]). by exists tb.
  - rewrite for_each_app. rewrite length_app in Hk. simpl in Hk.
    apply Forall_app in Hlive as [Hlive Hi].
    apply Forall_singleton in Hi as (t & Hi & Ht).
    destruct (for_each incRefCount_symbol tb ids) as [tb1|] eqn:H1; [|done].
    simpl. destruct (incRefCount_symbol tb1 i) as [tb2|] eqn:H2; [|done].
    simpl. intros [= <-].
    destruct (IH tb tb1 k Hbi Hrc Hlive ltac:(lia) H1)
      as (Hbi1 & Hrc1 & Hdm1 & F1 & HF1 & Hem1 & HdmF).
    pose proof (incRefCount_symbol_rc_bounded _ _ _ _ _ Hrc1 ltac:(lia) H2) as Hrc2.
    pose proof (incRefCount_symbol_bimap _ _ _ Hbi1 H2) as Hbi2.
    destruct (incRefCount_symbol_frame _ _ _ H2) as (Hdm2 & _).
    split; [done|]. split.
    { rewrite length_app. simpl.
      by replace (k + N.of_nat (length ids + 1))
        with (k + N.of_nat (length ids) + 1) by lia. }
    split; [congruence|].
    assert (extra_ref t i tb2 tb1) as Hx.
    { eapply incRefCount_symbol_extra; [done|by rewrite Hdm1| |done].
      intros shared Hs. destruct (Hrc1 _ _ Ht Hs). lia. }
    destruct (for_each_free_sim _ _ _ _ _ _ Hbi1 Hx HF1) as (A1 & HA1 & Hx1 & HbiF).
    destruct (free_symbol_extra _ _ _ _ HbiF Hx1) as (A2 & HA2 & HemA & HdmA).
    exists A2. rewrite for_each_app, HA1. simpl. rewrite HA2. simpl.
    split; [done|]. split; congruence.
Qed.

Lemma free_symbol_shrinks tb j tb' :
  free_symbol tb j = Some tb' →
  is_Some (decode_map_ tb !! j)
  ∧ ∀ i s, decode_map_ tb' !! i = Some s → decode_map_ tb !! i = Some s.
Proof.
  unfold free_symbol.
  destruct (decode_map_ tb !! j) as [str|] eqn:Hj; [|done]. simpl.
  destruct (encode_map_ tb !! str) as [shared|]; [|done]. simpl.
  case_match; intros [= <-]; simpl; (split; [eauto|]); [|done].
  intros i s [_ Hi]%lookup_delete_Some. done.
Qed.

Lemma for_each_free_live ids : ∀ tb tb',
  for_each free_symbol tb ids = Some tb' →
  Forall (λ i, is_Some (decode_map_ tb !! i)) ids.
Proof.
  induction ids as [|j ids IH]; intros tb tb'; simpl; [by constructor|].
  destruct (free_symbol tb j) as [tb1|] eqn:H1; [|done]. simpl. intros H2.
  destruct (free_symbol_shrinks _ _ _ H1) as [Hj Hsub].
  constructor; [done|].
  eapply Forall_impl; [exact (IH _ _ H2)|].
  intros i [s Hs]. exists s. by apply Hsub.
Qed.

Lemma for_each_incRef_live ids : ∀ tb,
  bimap tb →
  is_Some (for_each incRefCount_symbol tb ids)
  ↔ Forall (λ i, is_Some (decode_map_ tb !! i)) ids.
Proof.
  induction ids as [|j ids IH]; intros tb Hbi; simpl.
  - split; [by constructor|eauto].
  - rewrite Forall_cons, <- (incRefCount_symbol_live tb j Hbi).
    destruct (incRefCount_symbol tb j) as [tb1|] eqn:H1; simpl.
    + destruct (incRefCount_symbol_frame _ _ _ H1) as (Hdm & _).
      rewrite (IH tb1 (incRefCount_symbol_bimap _ _ _ Hbi H1)), Hdm.
      split; [by split; [eauto|]|by intros [_ ?]].
    + split; [by intros [? ?]|by intros [[? ?] _]].
Qed.

End lifetime.

(** Which names the table operations accept: in a reachable table,
    [toString] and [incRefCount] return exactly when every id of the name is
    in [decode_map_], and [free] aborts whenever one of them is not. *)
Theorem operations_need_live_ids (tb : SymbolTable.t) (stat_name : list N) :
  reachable tb →
  (is_Some (StatName_toString stat_name tb)
   ↔ Forall (λ i, is_Some (SymbolTable.fromSymbol tb i)) (symbols_of stat_name))
  ∧ (is_Some (SymbolTable.incRefCount tb stat_name)
     ↔ Forall (λ i, is_Some (SymbolTable.fromSymbol tb i)) (symbols_of stat_name))
  ∧ (is_Some (SymbolTable.free tb stat_name) →
     Forall (λ i, is_Some (SymbolTable.fromSymbol tb i)) (symbols_of stat_name)).
Proof.
  intros [Hbi _]%reachable_wf. split; [|split].
  - unfold StatName_toString, SymbolTable.decode, SymbolTable.decodeSymbolVec.
    fold (symbols_of stat_name).
    assert (is_Some (mapM (SymbolTable.fromSymbol tb) (symbols_of stat_name))
            ↔ Forall (λ i, is_Some (SymbolTable.fromSymbol tb i))
                     (symbols_of stat_name)) as <- by apply mapM_is_Some.
    destruct (mapM _ _); simpl; split; intros [? ?]; eauto; done.
  - by apply for_each_incRef_live.
  - intros [tb' H]. by eapply for_each_free_live.
Qed.

Lemma operations_need_live_ids_witness :
  is_Some (StatName_toString [2; 0; 0; 7] table_after_encode)
  ↔ Forall (λ i, is_Some (SymbolTable.fromSymbol table_after_encode i))
           (symbols_of [2; 0; 0; 7]).
Proof.
  apply (operations_need_live_ids table_after_encode [2; 0; 0; 7]).
  apply table_after_encode_reachable.
Defined.

(** Retain and release: copying a packed name into new storage
    ([StatNameStorage(StatName, SymbolTable&)]) returns a copy that is [==]
    to the source and leaves [decode_map_] alone; freeing the copy then puts
    both maps back as they were.  Every id of the name has to be in the
    table with between 1 and [k] references, [k] plus the number of ids
    staying below 2^32. *)
Theorem retain_then_release (tb : SymbolTable.t) (src : list N) (k : N) :
  reachable tb →
  Forall (λ i, ∃ t shared,
            SymbolTable.decode_map_ tb !! i = Some t
            ∧ SymbolTable.encode_map_ tb !! t = Some shared
            ∧ 1 ≤ SymbolTable.ref_count_ shared ≤ k)
         (symbols_of src) →
  k + N.of_nat (length (symbols_of src)) < 2 ^ 32 →
  ∃ tb1 copy tb2,
    StatNameStorage.of_StatName src tb = Some (tb1, copy)
    ∧ StatName.eqb copy src = true
    ∧ SymbolTable.decode_map_ tb1 = SymbolTable.decode_map_ tb
    ∧ StatNameStorage.free copy tb1 = Some tb2
    ∧ SymbolTable.encode_map_ tb2 = SymbolTable.encode_map_ tb
    ∧ SymbolTable.decode_map_ tb2 = SymbolTable.decode_map_ tb.
Proof.
  intros [Hbi _]%reachable_wf Hlive Hk.
  unfold StatNameStorage.of_StatName, StatNameStorage.free,
    StatNameStorage.statName, SymbolTable.incRefCount, SymbolTable.free.
  fold (StatName_copyToStorage src).
  assert (symbols_of (StatName_copyToStorage src) = symbols_of src) as Hsym.
  { unfold symbols_of, SymbolEncoding.decodeSymbols.
    by rewrite dataSize_copy, data_copy, take_idemp. }
  unfold symbols_of at 1 in Hsym. rewrite !Hsym.
  set (toks := omap (λ i, SymbolTable.decode_map_ tb !! i) (symbols_of src)).
  assert (Forall (λ i, ∃ t, SymbolTable.decode_map_ tb !! i = Some t ∧ t ∈ toks)
                 (symbols_of src)) as Hin.
  { apply Forall_forall. intros i Hi.
    pose proof (proj1 (Forall_forall _ _) Hlive i Hi) as (t & _ & Ht & _).
    exists t. split; [done|]. apply list_elem_of_omap. eauto. }
  assert (rc_bounded toks k tb) as Hrc.
  { intros tok shared (i & Hi & Hti)%list_elem_of_omap Hs.
    pose proof (proj1 (Forall_forall _ _) Hlive i Hi) as (t & sh & Ht & Hsh & Hb).
    rewrite Hti in Ht. injection Ht as <-. rewrite Hs in Hsh.
    by injection Hsh as <-. }
  assert (is_Some (SymbolTable.for_each SymbolTable.incRefCount_symbol tb
                                        (symbols_of src))) as [tb1 H1].
  { apply for_each_incRef_live; [done|].
    eapply Forall_impl; [exact Hlive|]. intros i (t & _ & Ht & _). eauto. }
  destruct (incRefs_free toks _ tb tb1 k Hbi Hrc Hin Hk H1)
    as (_ & _ & Hdm1 & tb2 & H2 & Hem2 & Hdm2).
  exists tb1, (StatName_copyToStorage src), tb2.
  rewrite H1. simpl. split; [done|]. split.
  { apply eqb_spec_take. rewrite dataSize_copy, data_copy. by rewrite take_idemp. }
  rewrite Hsym. done.
Qed.

Lemma retain_then_release_witness :
  ∃ tb1 copy tb2,
    StatNameStorage.of_StatName [3; 0; 0; 1; 2] table_after_encode = Some (tb1, copy)
    ∧ StatName.eqb copy [3; 0; 0; 1; 2] = true
    ∧ SymbolTable.decode_map_ tb1 = SymbolTable.decode_map_ table_after_encode
    ∧ StatNameStorage.free copy tb1 = Some tb2
    ∧ SymbolTable.encode_map_ tb2 = SymbolTable.encode_map_ table_after_encode
    ∧ SymbolTable.decode_map_ tb2 = SymbolTable.decode_map_ table_after_encode.
Proof.
  apply (retain_then_release table_after_encode [3; 0; 0; 1; 2] 1).
  - apply table_after_encode_reachable.
  - repeat constructor.
    + exists "cluster", (SymbolTable.mkSharedSymbol 0 1). by vm_compute.
    + exists "x", (SymbolTable.mkSharedSymbol 1 1). by vm_compute.
    + exists "rq_total", (SymbolTable.mkSharedSymbol 2 1). by vm_compute.
  - reflexivity.
Defined.

(** ** Scoped storage, stale names and the table destructor *)

Section scope.
Import SymbolTable.

Lemma of_name_symbols name tb tb' bytes_ :
  wf tb → StatNameStorage.of_name name tb = Some (tb', bytes_) →
  toSymbols tb (tokens_of name) = Some (tb', symbols_of bytes_)
  ∧ N.of_nat (length (symbols_of bytes_)) < StatNameMaxSize
  ∧ wf tb'.
Proof.
  intros Hwf (e & He & Hsz & ->)%of_name_inv.
  unfold symbols_of. rewrite dataSize_prefix, data_prefix.
  destruct (encode_inv _ _ _ _ Hwf He)
    as (ids & toks & -> & _ & _ & _ & _ & H32 & Hwf' & _).
  rewrite (decodeSymbols_encoding ids H32).
  pose proof (encoding_size_ge ids) as Hge.
  split; [|split; [lia|done]].
  unfold encode in He. destruct name as [|c name].
  - injection He as <- He. destruct ids as [|i ids]; [done|].
    exfalso. pose proof (base128_nonempty _ _ (base128_addSymbol i)) as Hne.
    simpl in He. symmetry in He.
    rewrite (foldl_addSymbol ids _ _ (base128_chunks ids)) in He.
    apply app_eq_nil in He as [He _]. done.
  - simpl. destruct (toSymbols _ _) as [[tb1 symbols]|] eqn:H1; [|done].
    simpl in He. injection He as <- He.
    destruct (toSymbols_wf _ _ _ _ Hwf H1) as (Hwf1 & _ & HF & _).
    assert (Forall (λ s, s < 2 ^ 32) symbols) as H32'
      by (by eapply live_ids_32bit; [apply Hwf1|]).
    rewrite <- (decodeSymbols_encoding symbols H32'), He.
    by rewrite (decodeSymbols_encoding ids H32).
Qed.

Lemma of_name_then_free tb tb' name bytes_ k :
  wf tb → rc_bounded (tokens_of name) k tb →
  k + N.of_nat (length (tokens_of name)) < 2 ^ 32 →
  StatNameStorage.of_name name tb = Some (tb', bytes_) →
  ∃ tb'', StatNameStorage.free bytes_ tb' = Some tb''
          ∧ encode_map_ tb'' = encode_map_ tb
          ∧ decode_map_ tb'' = decode_map_ tb.
Proof.
  intros Hwf Hrc Hk Hrun.
  destruct (of_name_symbols _ _ _ _ Hwf Hrun) as (Hsym & _ & _).
  unfold StatNameStorage.free, StatNameStorage.statName, free.
  fold (symbols_of bytes_).
  destruct (toSymbols_free (tokens_of name) (tokens_of name) tb tb'
              (symbols_of bytes_) k) as (_ & _ & Hres); try done.
  apply Hwf.
Qed.

Lemma toSymbols_first_fresh tb t l tb' ids :
  encode_map_ tb !! t = None →
  toSymbols tb (t :: l) = Some (tb', ids) →
  ∃ ids', ids = next_symbol_ tb :: ids'.
Proof.
  intros Ht. simpl. unfold toSymbol. rewrite Ht.
  destruct (decode_map_ tb !! next_symbol_ tb); [done|].
  destruct (newSymbol _) as [tb1|]; [|done]. simpl.
  destruct (toSymbols tb1 l) as [[tb2 ids']|]; [|done]. simpl.
  intros [= <- <-]. eauto.
Qed.

Lemma tokens_of_nonempty name : name ≠ EmptyString → tokens_of name ≠ [].
Proof.
  destruct name as [|c name]; [done|]. intros _. apply StrSplit_nonempty.
Qed.

Lemma numSymbols_bimap tb :
  bimap tb → numSymbols tb = Some (N.of_nat (size (decode_map_ tb))).
Proof.
  intros [_ Hsz]. unfold numSymbols. rewrite Hsz. by case_decide.
Qed.

End scope.

(** [StatNameTempStorage]: constructing one for a name and destroying it
    leaves both maps of the table, and [numSymbols], as they were, whether or
    not the table already holds pieces of the name.  The pieces it holds must
    have between 1 and [k] references, [k] plus the number of pieces staying
    below 2^32. *)
Theorem temp_storage_scope (tb tb' : SymbolTable.t) (name : string)
    (bytes_ : list N) (k : N) :
  reachable tb →
  rc_bounded (tokens_of name) k tb →
  k + N.of_nat (length (tokens_of name)) < 2 ^ 32 →
  StatNameTempStorage.of_name name tb = Some (tb', bytes_) →
  ∃ tb'',
    StatNameTempStorage.destroy bytes_ tb' = Some tb''
    ∧ SymbolTable.encode_map_ tb'' = SymbolTable.encode_map_ tb
    ∧ SymbolTable.decode_map_ tb'' = SymbolTable.decode_map_ tb
    ∧ SymbolTable.numSymbols tb'' = SymbolTable.numSymbols tb.
Proof.
  intros Hwf%reachable_wf Hrc Hk Hrun.
  destruct (of_name_then_free _ _ _ _ _ Hwf Hrc Hk Hrun) as (tb'' & H & Hem & Hdm).
  exists tb''. unfold StatNameTempStorage.destroy.
  do 3 (split; [done|]). unfold SymbolTable.numSymbols. by rewrite Hem, Hdm.
Qed.

Lemma temp_storage_scope_witness :
  ∃ tb'',
    StatNameTempStorage.destroy [3; 0; 0; 3; 2] table_two_names_shared = Some tb''
    ∧ SymbolTable.encode_map_ tb'' = SymbolTable.encode_map_ table_after_encode
    ∧ SymbolTable.decode_map_ tb'' = SymbolTable.decode_map_ table_after_encode
    ∧ SymbolTable.numSymbols tb'' = SymbolTable.numSymbols table_after_encode.
Proof.
  apply (temp_storage_scope table_after_encode table_two_names_shared
           "cluster.y.rq_total" [3; 0; 0; 3; 2] 1).
  - apply table_after_encode_reachable.
  - intros tok shared Htok.
    apply elem_of_cons in Htok as [->|Htok]; [by intros [= <-]|].
    apply elem_of_cons in Htok as [->|Htok]; [by intros [= <-]|].
    apply elem_of_cons in Htok as [->|Htok]; [by intros [= <-]|].
    by apply not_elem_of_nil in Htok.
  - reflexivity.
  - vm_compute. reflexivity.
Defined.

(** A name is stale once released: when no piece of a non-empty name was in
    the table, then after building the packed name and freeing it,
    rendering it, freeing it a second time and retaining it all abort. *)
Theorem stale_name_aborts (tb tb' tb'' : SymbolTable.t) (name : string)
    (bytes_ : list N) :
  reachable tb →
  name ≠ EmptyString →
  Forall (λ token, SymbolTable.encode_map_ tb !! token = None) (tokens_of name) →
  StatNameStorage.of_name name tb = Some (tb', bytes_) →
  StatNameStorage.free bytes_ tb' = Some tb'' →
  StatName_toString bytes_ tb'' = None
  ∧ StatNameStorage.free bytes_ tb'' = None
  ∧ SymbolTable.incRefCount tb'' bytes_ = None.
Proof.
  intros Hwf%reachable_wf Hname Habsent Hrun Hfree.
  destruct (of_name_symbols _ _ _ _ Hwf Hrun) as (Hsym & Hlen & Hwf').
  assert (rc_bounded (tokens_of name) 0 tb) as Hrc.
  { intros tok shared Htok Hs.
    rewrite Forall_forall in Habsent. by rewrite (Habsent _ Htok) in Hs. }
  assert (0 + N.of_nat (length (tokens_of name)) < 2 ^ 32) as Hk.
  { destruct (toSymbols_wf _ _ _ _ Hwf Hsym) as (_ & _ & HF & _).
    apply Forall2_length in HF. rewrite <- HF.
    change StatNameMaxSize with 65536 in Hlen.
    assert (65536 < 2 ^ 32) by done. lia. }
  destruct (of_name_then_free _ _ _ _ _ Hwf Hrc Hk Hrun) as (tb2 & H2 & _ & Hdm).
  rewrite Hfree in H2. injection H2 as <-.
  pose proof (tokens_of_nonempty name Hname) as Hne.
  destruct (tokens_of name) as [|t l] eqn:Htoks; [done|].
  apply Forall_cons in Habsent as [Ht _].
  destruct (toSymbols_first_fresh _ _ _ _ _ Ht Hsym) as [ids' Hids].
  assert (¬ Forall (λ i, is_Some (SymbolTable.decode_map_ tb'' !! i))
                   (symbols_of bytes_)) as Hdead.
  { rewrite Hids, Hdm. intros [Hhead _]%Forall_cons.
    rewrite (ids_next_fresh tb (proj2 Hwf)) in Hhead. by destruct Hhead. }
  assert (bimap tb'') as Hbi''.
  { unfold StatNameStorage.free in Hfree.
    by destruct (free_wf _ _ _ Hwf' Hfree) as ([? _] & _). }
  split; [|split].
  - unfold StatName_toString, SymbolTable.decode, SymbolTable.decodeSymbolVec.
    fold (symbols_of bytes_).
    destruct (mapM _ _) as [toks|] eqn:Hm; [|done]. exfalso. apply Hdead.
    apply (mapM_is_Some_1 (SymbolTable.fromSymbol tb'')). eauto.
  - unfold StatNameStorage.free, StatNameStorage.statName, SymbolTable.free.
    fold (symbols_of bytes_).
    destruct (SymbolTable.for_each _ _ _) as [x|] eqn:Hx; [|done].
    exfalso. apply Hdead. by eapply for_each_free_live.
  - unfold SymbolTable.incRefCount. fold (symbols_of bytes_).
    destruct (SymbolTable.for_each _ _ _) as [x|] eqn:Hx; [|done].
    exfalso. apply Hdead. apply (for_each_incRef_live _ _ Hbi''). eauto.
Qed.

Lemma stale_name_aborts_witness :
  StatName_toString [1; 0; 0] table_after_free = None
  ∧ StatNameStorage.free [1; 0; 0] table_after_free = None
  ∧ SymbolTable.incRefCount table_after_free [1; 0; 0] = None.
Proof.
  apply (stale_name_aborts SymbolTable.init
           (SymbolTable.mk 1 1 {["a" := SymbolTable.mkSharedSymbol 0 1]}
                           {[0 := "a"]} [])
           table_after_free "a" [1; 0; 0]).
  - apply reachable_init.
  - discriminate.
  - repeat constructor.
  - vm_compute. reflexivity.
  - vm_compute. reflexivity.
Defined.

(** The destructor of the table finds leaks: on a reachable table that may
    be destroyed (it holds no symbol), building the packed name of a
    non-empty name makes the destructor abort, and freeing that name makes it
    pass again. *)
Theorem destructor_detects_leaks (tb tb' : SymbolTable.t) (name : string)
    (bytes_ : list N) :
  reachable tb →
  SymbolTable_destroy tb = Some () →
  name ≠ EmptyString →
  StatNameStorage.of_name name tb = Some (tb', bytes_) →
  SymbolTable_destroy tb' = None
  ∧ ∃ tb'', StatNameStorage.free bytes_ tb' = Some tb''
            ∧ SymbolTable_destroy tb'' = Some ().
Proof.
  intros Hwf%reachable_wf Hempty Hname Hrun.
  assert (SymbolTable.encode_map_ tb = ∅) as Hem.
  { unfold SymbolTable_destroy, SymbolTable.numSymbols in Hempty.
    case_decide; [|done]. simpl in Hempty.
    destruct (N.eqb_spec (N.of_nat (size (SymbolTable.encode_map_ tb))) 0);
      [|done]. apply map_size_empty_inv. lia. }
  destruct (of_name_symbols _ _ _ _ Hwf Hrun) as (Hsym & Hlen & Hwf').
  assert (rc_bounded (tokens_of name) 0 tb) as Hrc.
  { intros tok shared _. by rewrite Hem, lookup_empty. }
  assert (0 + N.of_nat (length (tokens_of name)) < 2 ^ 32) as Hk.
  { destruct (toSymbols_wf _ _ _ _ Hwf Hsym) as (_ & _ & HF & _).
    apply Forall2_length in HF. rewrite <- HF.
    change StatNameMaxSize with 65536 in Hlen.
    assert (65536 < 2 ^ 32) by done. lia. }
  split.
  - pose proof (tokens_of_nonempty name Hname) as Hne.
    destruct (toSymbols_wf _ _ _ _ Hwf Hsym) as (_ & _ & HF & _).
    destruct HF as [|i tok ids toks Hi _]; [done|].
    unfold SymbolTable_destroy.
    rewrite (numSymbols_bimap tb' (proj1 Hwf')). simpl.
    destruct (N.eqb_spec (N.of_nat (size (SymbolTable.decode_map_ tb'))) 0)
      as [Hz|_]; [|done].
    assert (SymbolTable.decode_map_ tb' = ∅) as Hdm
      by (apply map_size_empty_inv; lia).
    by rewrite Hdm, lookup_empty in Hi.
  - destruct (of_name_then_free _ _ _ _ _ Hwf Hrc Hk Hrun) as (tb'' & H & He & Hd).
    exists tb''. split; [done|].
    unfold SymbolTable_destroy, SymbolTable.numSymbols in *.
    by rewrite He, Hd.
Qed.

Lemma destructor_detects_leaks_witness :
  SymbolTable_destroy table_after_encode = None
  ∧ ∃ tb'', StatNameStorage.free [3; 0; 0; 1; 2] table_after_encode = Some tb''
            ∧ SymbolTable_destroy tb'' = Some ().
Proof.
  apply (destructor_detects_leaks SymbolTable.init table_after_encode
           "cluster.x.rq_total" [3; 0; 0; 1; 2]).
  - apply reachable_init.
  - reflexivity.
  - discriminate.
  - vm_compute. reflexivity.
Defined.

(** ** [lessThan] as an order on names *)

Section order.
Import SymbolTable.

Lemma ltb_irrefl s : String.ltb s s = false.
Proof.
  unfold String.ltb. pose proof (String.compare_antisym s s) as H.
  destruct (String.compare s s); simpl in H; congruence.
Qed.

Lemma ltb_asym x y : String.ltb x y = true → String.ltb y x = false.
Proof.
  unfold String.ltb. rewrite (String.compare_antisym y x).
  by destruct (String.compare x y).
Qed.

Lemma ltb_total x y : x ≠ y → String.ltb x y = true ∨ String.ltb y x = true.
Proof.
  intros Hne. unfold String.ltb. rewrite (String.compare_antisym y x).
  destruct (String.compare x y) eqn:Hc; simpl; auto.
  by apply String.compare_eq_iff in Hc.
Qed.

Lemma ltb_leb x y : String.ltb x y = negb (String.leb y x).
Proof.
  unfold String.ltb, String.leb. rewrite (String.compare_antisym y x).
  by destruct (String.compare x y).
Qed.

Lemma ltb_trans x y z :
  String.ltb x y = true → String.ltb y z = true → String.ltb x z = true.
Proof.
  rewrite !ltb_leb, !negb_true_iff. intros Hyx Hzy.
  destruct (String.leb z x) eqn:Hzx; [|done].
  assert (String.le x y) as Hxy.
  { destruct (String.leb_total x y) as [H|H]; [by apply Is_true_true|].
    congruence. }
  assert (String.le z y) as Hle
    by (etrans; [apply Is_true_true; exact Hzx|exact Hxy]).
  apply Is_true_true in Hle. congruence.
Qed.

Lemma tokens_ltb_irrefl l : tokens_ltb l l = false.
Proof. induction l as [|x l IH]; simpl; [done|]. by case_decide. Qed.

Lemma tokens_ltb_asym l1 : ∀ l2,
  tokens_ltb l1 l2 = true → tokens_ltb l2 l1 = false.
Proof.
  induction l1 as [|x l1 IH]; intros [|y l2]; simpl; try done.
  case_decide as Hxy.
  - subst y. rewrite decide_True by done. apply IH.
  - rewrite decide_False by done. apply ltb_asym.
Qed.

Lemma tokens_ltb_trans l1 : ∀ l2 l3,
  tokens_ltb l1 l2 = true → tokens_ltb l2 l3 = true → tokens_ltb l1 l3 = true.
Proof.
  induction l1 as [|x l1 IH]; intros [|y l2] [|z l3]; simpl; try done.
  case_decide as Hxy; case_decide as Hyz.
  - subst. rewrite decide_True by done. apply IH.
  - subst. by rewrite decide_False.
  - subst. by rewrite decide_False.
  - intros H1 H2. pose proof (ltb_trans _ _ _ H1 H2) as H3.
    case_decide as Hxz; [|done]. subst z.
    apply ltb_asym in H1. congruence.
Qed.

Lemma tokens_ltb_total l1 : ∀ l2,
  tokens_ltb l1 l2 = false → tokens_ltb l2 l1 = false → l1 = l2.
Proof.
  induction l1 as [|x l1 IH]; intros [|y l2]; simpl; try done.
  case_decide as Hxy.
  - subst y. rewrite decide_True by done. intros H1 H2. f_equal. by apply IH.
  - rewrite decide_False by done. intros H1 H2.
    destruct (ltb_total x y Hxy); congruence.
Qed.

Lemma lessThan_loop_shift tb x y av bv todo : ∀ i,
  lessThan_loop tb (x :: av) (y :: bv) (S i) todo
  = lessThan_loop tb av bv i todo.
Proof.
  induction todo as [|todo IH]; intros i; cbn [lessThan_loop].
  - f_equal. rewrite !length_cons, !Nat2N.inj_succ.
    destruct (N.ltb_spec (N.succ (N.of_nat (length av)))
                         (N.succ (N.of_nat (length bv))));
      destruct (N.ltb_spec (N.of_nat (length av)) (N.of_nat (length bv)));
      (done || lia).
  - change ((x :: av) !!! S i) with (av !!! i).
    change ((y :: bv) !!! S i) with (bv !!! i).
    rewrite IH. done.
Qed.

Lemma lessThan_loop_tokens tb av ta :
  bimap tb →
  Forall2 (λ id tok, decode_map_ tb !! id = Some tok) av ta →
  ∀ bv tb',
    Forall2 (λ id tok, decode_map_ tb !! id = Some tok) bv tb' →
    lessThan_loop tb av bv 0 (min (length av) (length bv))
    = Some (tokens_ltb ta tb').
Proof.
  intros Hbi. induction 1 as [|x tx av ta Hx HFa IH]; intros bv tb' HFb.
  - destruct HFb; simpl; done.
  - destruct HFb as [|y ty bv tb' Hy HFb]; [done|].
    cbn [length min Nat.min lessThan_loop].
    change ((x :: av) !!! 0%nat) with x. change ((y :: bv) !!! 0%nat) with y.
    simpl tokens_ltb. case_decide as Hxy.
    + subst y. rewrite Hx in Hy. injection Hy as <-.
      rewrite decide_True by done. rewrite lessThan_loop_shift. by apply IH.
    + unfold fromSymbol. rewrite Hx, Hy. simpl.
      rewrite decide_False; [done|]. intros <-. apply Hxy.
      destruct Hbi as [Hinv _].
      apply Hinv in Hx as [rc1 Hx]. apply Hinv in Hy as [rc2 Hy].
      rewrite Hx in Hy. by injection Hy.
Qed.

Lemma lessThan_tokens tb a b ta tb' :
  bimap tb →
  Forall2 (λ id tok, decode_map_ tb !! id = Some tok) (symbols_of a) ta →
  Forall2 (λ id tok, decode_map_ tb !! id = Some tok) (symbols_of b) tb' →
  lessThan tb a b = Some (tokens_ltb ta tb').
Proof.
  intros Hbi Ha Hb. unfold lessThan. fold (symbols_of a) (symbols_of b).
  by apply lessThan_loop_tokens.
Qed.

End order.

(** For two packed names holding the id sequences [sa] and [sb], all ids
    being in a reachable table, [lessThan] is the lexicographic comparison
    of the two lists of token strings the table holds for [sa] and [sb]: the
    first pair of different tokens decides by string comparison, and a
    proper prefix is smaller. *)
Theorem lessThan_is_token_order (tb : SymbolTable.t) (sa sb : list N)
    (a b : list N) (ta tb' : list string) :
  reachable tb →
  packed_name sa = Some a → packed_name sb = Some b →
  Forall2 (λ id tok, SymbolTable.fromSymbol tb id = Some tok) sa ta →
  Forall2 (λ id tok, SymbolTable.fromSymbol tb id = Some tok) sb tb' →
  SymbolTable.lessThan tb a b = Some (tokens_ltb ta tb').
Proof.
  intros [Hbi Hids]%reachable_wf Ha Hb HFa HFb.
  pose proof (live_ids_32bit _ _ _ Hids HFa) as H32a.
  pose proof (live_ids_32bit _ _ _ Hids HFb) as H32b.
  apply lessThan_tokens; [done| |]; unfold symbols_of.
  - by rewrite (decodeSymbols_packed sa a H32a Ha).
  - by rewrite (decodeSymbols_packed sb b H32b Hb).
Qed.

Lemma lessThan_is_token_order_witness :
  SymbolTable.lessThan table_two_names [2; 0; 0; 1] [1; 0; 0]
  = Some (tokens_ltb ["a"; "b"] ["a"]).
Proof.
  apply (lessThan_is_token_order table_two_names [0; 1] [0]
           [2; 0; 0; 1] [1; 0; 0]).
  - eapply reachable_step.
    + eapply reachable_step; [apply reachable_init|].
      apply (step_encode SymbolTable.init "a.b" table_after_two_tokens [0; 1]).
      vm_compute. reflexivity.
    + apply (step_encode _ "a.c" _ [0; 2]). vm_compute. reflexivity.
  - reflexivity.
  - reflexivity.
  - repeat constructor.
  - repeat constructor.
Defined.

(** On names whose ids are in a reachable table, [lessThan] is a strict
    total order up to equality of the id sequences: it is asymmetric and
    transitive, and two names neither of which is less than the other have
    the same ids. *)
Theorem lessThan_strict_order (tb : SymbolTable.t) (a b c : list N) :
  reachable tb →
  Forall (λ i, is_Some (SymbolTable.fromSymbol tb i)) (symbols_of a) →
  Forall (λ i, is_Some (SymbolTable.fromSymbol tb i)) (symbols_of b) →
  Forall (λ i, is_Some (SymbolTable.fromSymbol tb i)) (symbols_of c) →
  (SymbolTable.lessThan tb a b = Some true →
   SymbolTable.lessThan tb b a = Some false)
  ∧ (SymbolTable.lessThan tb a b = Some true →
     SymbolTable.lessThan tb b c = Some true →
     SymbolTable.lessThan tb a c = Some true)
  ∧ (SymbolTable.lessThan tb a b = Some false →
     SymbolTable.lessThan tb b a = Some false →
     symbols_of a = symbols_of b).
Proof.
  intros [Hbi _]%reachable_wf [ta Ha]%live_tokens [tb' Hb]%live_tokens
         [tc Hc]%live_tokens.
  rewrite (lessThan_tokens tb a b ta tb' Hbi Ha Hb),
          (lessThan_tokens tb b a tb' ta Hbi Hb Ha),
          (lessThan_tokens tb b c tb' tc Hbi Hb Hc),
          (lessThan_tokens tb a c ta tc Hbi Ha Hc).
  split; [|split].
  - intros [= H]. f_equal. by apply tokens_ltb_asym.
  - intros [= H1] [= H2]. f_equal. by eapply tokens_ltb_trans.
  - intros [= H1] [= H2]. pose proof (tokens_ltb_total _ _ H1 H2) as <-.
    by eapply live_ids_unique.
Qed.

Lemma lessThan_strict_order_witness :
  SymbolTable.lessThan table_two_names [2; 0; 0; 2] [2; 0; 0; 1] = Some false.
Proof.
  assert (reachable table_two_names) as Hr.
  { eapply reachable_step.
    - eapply reachable_step; [apply reachable_init|].
      apply (step_encode SymbolTable.init "a.b" table_after_two_tokens [0; 1]).
      vm_compute. reflexivity.
    - apply (step_encode _ "a.c" _ [0; 2]). vm_compute. reflexivity. }
  assert (Forall (λ i, is_Some (SymbolTable.fromSymbol table_two_names i))
                 (symbols_of [2; 0; 0; 1])) as H1
    by (repeat constructor; vm_compute; eexists; reflexivity).
  assert (Forall (λ i, is_Some (SymbolTable.fromSymbol table_two_names i))
                 (symbols_of [2; 0; 0; 2])) as H2
    by (repeat constructor; vm_compute; eexists; reflexivity).
  pose proof (lessThan_strict_order table_two_names [2; 0; 0; 1] [2; 0; 0; 2] []
                Hr H1 H2 (Forall_nil_2 _)) as (H & _ & _).
  apply H. reflexivity.
Defined.

(** The order of [lessThan] is not the order of the rendered strings: as
    the header notes, ["-.-"] sorts after ["---"] as a string but before it
    as a name. *)
Example lessThan_differs_from_string_order :
  ('(tb1, p1) ← StatNameStorage.of_name "-.-" SymbolTable.init;
   '(tb2, p2) ← StatNameStorage.of_name "---" tb1;
   r ← SymbolTable.lessThan tb2 p1 p2;
   Some (r, String.ltb "-.-" "---"))
  = Some (true, false).
Proof. vm_compute. reflexivity. Qed.

(** Two-byte ids: in a table holding 130 one-character tokens, id [n] being
    the character of code [200 - n], the names of ids 128 and 129 compare as
    the strings ["H"] and ["G"] do. *)
Example lessThan_two_byte_ids :
  ('(tb, _) ← SymbolTable.toSymbols SymbolTable.init
                ((λ n, String (ascii_of_nat (200 - n)) EmptyString) <$> seq 0 130);
   a ← packed_name [128];
   b ← packed_name [129];
   sa ← StatName_toString a tb;
   sb ← StatName_toString b tb;
   r1 ← SymbolTable.lessThan tb a b;
   r2 ← SymbolTable.lessThan tb b a;
   Some (a, b, sa, sb, r1, r2))
  = Some ([2; 0; 0x80; 0x01], [2; 0; 0x81; 0x01], "H", "G", false, true).
Proof. vm_compute. reflexivity. Qed.

(** ** Rendering a joined name *)

Section render.
Import SymbolTable.

Lemma StrJoin_concat (tokss : list (list string)) sep :
  Forall (λ toks, toks ≠ []) tokss →
  StrJoin (concat tokss) sep = StrJoin ((λ toks, StrJoin toks sep) <$> tokss) sep.
Proof.
  induction 1 as [|toks tokss Hne Hall IH]; [done|].
  rewrite concat_cons, fmap_cons. destruct tokss as [|toks' tokss].
  - simpl. by rewrite app_nil_r.
  - rewrite StrJoin_app; [|done|].
    + rewrite IH. by rewrite (StrJoin_cons (StrJoin toks sep)).
    + apply Forall_cons in Hall as [Hne' _]. rewrite concat_cons.
      destruct toks'; [done|]. done.
Qed.

Lemma render_each tb sss : ∀ ps,
  ids_ok tb →
  Forall2 (λ ss p, packed_name ss = Some p) sss ps →
  Forall (λ i, is_Some (fromSymbol tb i)) (concat sss) →
  ∃ tokss,
    Forall2 (λ ss toks, length ss = length toks) sss tokss
    ∧ Forall2 (λ id tok, decode_map_ tb !! id = Some tok)
              (concat sss) (concat tokss)
    ∧ Forall2 (λ p toks, StatName_toString p tb = Some (StrJoin toks "."))
              ps tokss.
Proof.
  intros ps Hids HF. induction HF as [|ss p sss ps Hp _ IH]; intros Hlive.
  - exists []. repeat split; constructor.
  - rewrite concat_cons in Hlive. apply Forall_app in Hlive as [Hl1 Hl2].
    destruct (IH Hl2) as (tokss & Hlen & Hcat & Hren).
    destruct (live_tokens _ _ Hl1) as [toks Htoks].
    exists (toks :: tokss). split; [|split].
    + constructor; [by eapply Forall2_length|done].
    + rewrite !concat_cons. by apply Forall2_app.
    + constructor; [|done].
      apply packed_name_inv in Hp as [_ ->]. rewrite toString_packed.
      unfold decode.
      rewrite decodeSymbols_encoding by (by eapply live_ids_32bit).
      by apply decodeSymbolVec_live.
Qed.

End render.

(** Joining any number of non-empty packed names whose ids are in a
    reachable table, the payloads together fitting the length prefix,
    returns a name that renders to the renderings of the parts joined by
    dots. *)
Theorem join_list_renders (tb : SymbolTable.t) (sss : list (list N))
    (ps : list (list N)) :
  reachable tb →
  Forall2 (λ ss p, packed_name ss = Some p) sss ps →
  Forall (λ ss, ss ≠ []) sss →
  Forall (λ i, is_Some (SymbolTable.fromSymbol tb i)) (concat sss) →
  SymbolEncoding.size (foldl SymbolEncoding.addSymbol [] (concat sss))
    < StatNameMaxSize →
  ∃ j rs,
    StatNameJoiner_join_list ps = Some j
    ∧ Forall2 (λ p r, StatName_toString p tb = Some r) ps rs
    ∧ StatName_toString (StatNameJoiner.statName j) tb = Some (StrJoin rs ".").
Proof.
  intros [_ Hids]%reachable_wf HF Hne Hlive Hfit.
  destruct (render_each tb sss ps Hids HF Hlive) as (tokss & Hlen & Hcat & Hren).
  assert (SymbolEncoding.size (foldl SymbolEncoding.addSymbol [] (concat sss))
          < 2 ^ 64) as H64.
  { eapply N.lt_trans; [exact Hfit|reflexivity]. }
  rewrite (join_list_packed sss ps HF H64), packed_name_eq.
  rewrite (saveLength_ok _ Hfit). simpl.
  eexists _, ((λ toks, StrJoin toks ".") <$> tokss). split; [done|]. split.
  - apply Forall2_fmap_r. eapply Forall2_impl; [exact Hren|]. done.
  - unfold StatNameJoiner.statName.
    change (?x :: ?y :: foldl SymbolEncoding.addSymbol [] (concat sss))
      with ([x; y] ++ foldl SymbolEncoding.addSymbol [] (concat sss)).
    rewrite toString_packed. unfold SymbolTable.decode.
    rewrite decodeSymbols_encoding by (by eapply live_ids_32bit).
    rewrite (decodeSymbolVec_live _ _ _ Hcat). f_equal.
    apply StrJoin_concat.
    clear -Hne Hlen. induction Hlen as [|ss toks sss tokss Hl _ IH];
      [constructor|].
    apply Forall_cons in Hne as [Hss Hne]. constructor; [|by apply IH].
    intros ->. destruct ss; [done|]. discriminate Hl.
Qed.

Lemma join_list_renders_witness :
  ∃ j rs,
    StatNameJoiner_join_list [[2; 0; 0; 1]; [1; 0; 2]; [1; 0; 0]] = Some j
    ∧ Forall2 (λ p r, StatName_toString p table_two_names = Some r)
              [[2; 0; 0; 1]; [1; 0; 2]; [1; 0; 0]] rs
    ∧ StatName_toString (StatNameJoiner.statName j) table_two_names
      = Some (StrJoin rs ".").
Proof.
  apply (join_list_renders table_two_names [[0; 1]; [2]; [0]]).
  - eapply reachable_step.
    + eapply reachable_step; [apply reachable_init|].
      apply (step_encode SymbolTable.init "a.b" table_after_two_tokens [0; 1]).
      vm_compute. reflexivity.
    + apply (step_encode _ "a.c" _ [0; 2]). vm_compute. reflexivity.
  - repeat constructor.
  - repeat constructor; discriminate.
  - repeat constructor; vm_compute; eexists; reflexivity.
  - reflexivity.
Defined.

(** ** References keep a name alive *)

Section held.
Import SymbolTable.

Lemma free_symbol_keeps tb j tb' i t shared l :
  bimap tb →
  decode_map_ tb !! i = Some t → encode_map_ tb !! t = Some shared →
  id_occurrences i (j :: l) < ref_count_ shared → ref_count_ shared < 2 ^ 32 →
  free_symbol tb j = Some tb' →
  ∃ shared',
    decode_map_ tb' !! i = Some t ∧ encode_map_ tb' !! t = Some shared'
    ∧ id_occurrences i l < ref_count_ shared' ∧ ref_count_ shared' < 2 ^ 32.
Proof.
  intros Hbi Hi Ht Hocc H32. unfold free_symbol.
  destruct (decode_map_ tb !! j) as [str|] eqn:Hj; [|done]. simpl.
  destruct (encode_map_ tb !! str) as [[id rc]|] eqn:Hstr; [|done]. simpl.
  unfold id_occurrences in *.
  destruct (decide (j = i)) as [->|Hji].
  - rewrite Hi in Hj. injection Hj as <-. rewrite Ht in Hstr.
    injection Hstr as ->. simpl in *.
    rewrite filter_cons_True in Hocc by done. simpl in Hocc.
    rewrite (u32_pred rc) by lia.
    destruct (N.eqb_spec (rc - 1) 0) as [|_]; [lia|].
    intros [= <-]. simpl. eexists. rewrite lookup_insert_eq.
    split; [done|]. split; [done|]. simpl. lia.
  - rewrite filter_cons_False in Hocc by done.
    assert (str ≠ t) as Hst.
    { intros ->. apply Hji. destruct Hbi as [Hinv _].
      apply Hinv in Hi as [r1 Hi]. apply Hinv in Hj as [r2 Hj].
      rewrite Hi in Hj. by injection Hj. }
    case_match; intros [= <-]; simpl; exists shared.
    + rewrite !lookup_delete_ne by done. done.
    + rewrite lookup_insert_ne by done. done.
Qed.

Lemma for_each_free_keeps l : ∀ tb tb' i t shared,
  bimap tb →
  decode_map_ tb !! i = Some t → encode_map_ tb !! t = Some shared →
  id_occurrences i l < ref_count_ shared → ref_count_ shared < 2 ^ 32 →
  for_each free_symbol tb l = Some tb' →
  decode_map_ tb' !! i = Some t.
Proof.
  induction l as [|j l IH]; intros tb tb' i t shared Hbi Hi Ht Hocc H32; simpl.
  - by intros [= <-].
  - destruct (free_symbol tb j) as [tb1|] eqn:H1; [|done]. simpl. intros H2.
    destruct (free_symbol_keeps _ _ _ _ _ _ _ Hbi Hi Ht Hocc H32 H1)
      as (sh' & Hi1 & Ht1 & Hocc1 & H321).
    eapply (IH tb1); eauto. by eapply free_symbol_bimap.
Qed.

End held.

(** A name stays valid while it holds references: if every id of [q] has,
    in a reachable table, more references than it has occurrences in [p],
    then after [free] of [p] the name [q] renders to the same string as
    before. *)
Theorem held_name_survives_free (tb tb' : SymbolTable.t) (p q : list N)
    (s : string) :
  reachable tb →
  Forall (λ i, ∃ t shared,
            SymbolTable.decode_map_ tb !! i = Some t
            ∧ SymbolTable.encode_map_ tb !! t = Some shared
            ∧ id_occurrences i (symbols_of p) < SymbolTable.ref_count_ shared
            ∧ SymbolTable.ref_count_ shared < 2 ^ 32)
         (symbols_of q) →
  StatName_toString q tb = Some s →
  SymbolTable.free tb p = Some tb' →
  StatName_toString q tb' = Some s.
Proof.
  intros [Hbi _]%reachable_wf Hheld Hq Hfree.
  unfold StatName_toString, SymbolTable.decode, SymbolTable.decodeSymbolVec in *.
  fold (symbols_of q) in *.
  destruct (mapM (SymbolTable.fromSymbol tb) (symbols_of q)) as [toks|] eqn:Hm;
    [|done].
  simpl in Hq. apply mapM_Some_1 in Hm.
  rewrite (mapM_Some_2 (SymbolTable.fromSymbol tb') _ toks); [done|].
  clear Hq. induction Hm as [|i tok ids toks Hi _ IH]; [constructor|].
  apply Forall_cons in Hheld as [(t & shared & Ht & Hs & Hocc & H32) Hheld].
  constructor; [|by apply IH].
  unfold SymbolTable.fromSymbol in *. rewrite Ht in Hi. injection Hi as <-.
  by eapply (for_each_free_keeps (symbols_of p) tb tb' i t shared).
Qed.

Lemma held_name_survives_free_witness :
  StatName_toString [3; 0; 0; 3; 2] table_two_names_released
  = Some "cluster.y.rq_total".
Proof.
  apply (held_name_survives_free table_two_names_shared table_two_names_released
           [3; 0; 0; 1; 2] [3; 0; 0; 3; 2] "cluster.y.rq_total").
  - eapply reachable_step; [apply table_after_encode_reachable|].
    apply (step_encode _ "cluster.y.rq_total" _ [0; 3; 2]).
    vm_compute. reflexivity.
  - repeat constructor.
    + exists "cluster", (SymbolTable.mkSharedSymbol 0 2). by vm_compute.
    + exists "y", (SymbolTable.mkSharedSymbol 3 1). by vm_compute.
    + exists "rq_total", (SymbolTable.mkSharedSymbol 2 2). by vm_compute.
  - reflexivity.
  - vm_compute. reflexivity.
Defined.
